(** * aiCrypto dashboard front end: synchronisation layer and table engine

    A shallow embedding of
      - [frontend/src/contexts/WebSocketContext.tsx] (handler registry,
        frame dispatch, connection life cycle, [send]),
      - [frontend/src/hooks/useDashboard.ts] and [frontend/src/hooks/useCoins.ts]
        (SWR caches fed by pushed events),
      - the [CoinTable] component (filter, sort comparator, sort toggle),
    followed by the properties established about them. *)

From Stdlib Require Import QArith Qabs Ascii String Sorted.
From stdpp Require Import gmap strings list pretty.

Set Warnings "-register-all".

Local Open Scope string_scope.
Local Open Scope list_scope.

(** ** JavaScript values that travel through the layer

    Everything that crosses the socket is the result of [JSON.parse] or the
    argument of [JSON.stringify]; [undefined] is added because a missing
    property and the optional [data] argument of [send] evaluate to it.
    Numbers are finite doubles, represented by the rational they denote. *)

Inductive JSValue : Type :=
  | JUndefined
  | JNull
  | JBool (b : bool)
  | JNum (x : Q)
  | JStr (s : string)
  | JArr (items : list JSValue)
  | JObj (fields : list (string * JSValue)).

(** ToBoolean. *)
Definition truthy (v : JSValue) : bool :=
  match v with
  | JUndefined | JNull => false
  | JBool b => b
  | JNum x => negb (Qeq_bool x 0)
  | JStr s => negb (String.eqb s "")
  | JArr _ | JObj _ => true
  end.

(** Own property lookup. An object is its list of properties, each key
    once; on a list that repeats a key the first binding is read. *)
Fixpoint obj_get (fields : list (string * JSValue)) (k : string) : option JSValue :=
  match fields with
  | [] => None
  | (k', v) :: rest => if String.eqb k' k then Some v else obj_get rest k
  end.

(** [obj[k] = v]: overwrite in place when the key exists, append otherwise.
    Properties are kept in creation order (the rule that moves integer-like
    keys to the front is not modelled; only lookups are stated below). *)
Fixpoint obj_set (fields : list (string * JSValue)) (k : string) (v : JSValue)
  : list (string * JSValue) :=
  match fields with
  | [] => [(k, v)]
  | (k', v') :: rest =>
      if String.eqb k' k then (k', v) :: rest else (k', v') :: obj_set rest k v
  end.

(** [v.k] for the named keys this code reads ("type", "data", "dashboard"):
    [None] is the TypeError raised on [null] and [undefined]; primitives and
    arrays have no such property. *)
Definition get_prop (v : JSValue) (k : string) : option JSValue :=
  match v with
  | JUndefined | JNull => None
  | JObj fields => Some (default JUndefined (obj_get fields k))
  | _ => Some JUndefined
  end.

(** [v?.k] *)
Definition get_prop_opt (v : JSValue) (k : string) : JSValue :=
  default JUndefined (get_prop v k).

(** ** The handler registry and frame dispatch (WebSocketContext.tsx) *)

Module EventBus.

(** A handler is a JavaScript closure; the registry only sees its identity. *)
Abbreviation HandlerId := nat (only parsing).

(** What a handler can do to the registry while it runs: the context exposes
    [subscribe] and the unsubscribe closures it returned, nothing else. *)
Inductive BusOp : Type :=
  | OpSubscribe (t : string) (h : HandlerId)
  | OpUnsubscribe (t : string) (h : HandlerId).

(** Observable history, oldest first. *)
Inductive Event : Type :=
  | EvSubscribe (t : string) (h : HandlerId)
  | EvUnsubscribe (t : string) (h : HandlerId)
  | EvInvoke (t : string) (h : HandlerId) (payload : JSValue)
  | EvThrow (t : string) (h : HandlerId).

(** [Set<EventHandler>] as ECMAScript specifies it: the [[SetData]] list, in
    insertion order, where a deleted element leaves an empty slot behind. *)
Abbreviation SetData := (list (option HandlerId)) (only parsing).

Definition slot_is (h : HandlerId) (e : option HandlerId) : bool :=
  match e with
  | Some h' => Nat.eqb h' h
  | None => false
  end.

Definition set_has (h : HandlerId) (s : SetData) : bool := existsb (slot_is h) s.

(** [Set.prototype.add] *)
Definition set_add (h : HandlerId) (s : SetData) : SetData :=
  if set_has h s then s else s ++ [Some h].

(** [Set.prototype.delete] *)
Definition set_delete (h : HandlerId) (s : SetData) : SetData :=
  map (fun e => if slot_is h e then None else e) s.

Inductive Completion : Type := Normal | Thrown | OutOfFuel.

Section Bus.

(** The state the handlers close over (for the hooks: the SWR cache). *)
Context {St : Type}.

(** Result of running one handler on a payload. *)
Record Outcome : Type := mkOutcome {
  out_state : St;
  out_ops : list BusOp;
  out_throws : bool
}.

Variable behaviour : HandlerId -> JSValue -> St -> Outcome.

Record Bus : Type := mkBus {
  handlers : gmap string SetData;     (* handlersRef.current *)
  app : St;
  log : list Event
}.

Definition empty_bus (st : St) : Bus :=
  {| handlers := ∅; app := st; log := [] |}.

(** [subscribe(eventType, handler)], lines 63-68. *)
Definition subscribe (t : string) (h : HandlerId) (b : Bus) : Bus :=
  let hs :=
    match handlers b !! t with
    | None => <[t := []]> (handlers b)
    | Some _ => handlers b
    end in
  {| handlers := <[t := set_add h (default [] (hs !! t))]> hs;
     app := app b;
     log := log b ++ [EvSubscribe t h] |}.

(** The closure returned by [subscribe], lines 69-71. *)
Definition unsubscribe (t : string) (h : HandlerId) (b : Bus) : Bus :=
  {| handlers :=
       match handlers b !! t with
       | Some s => <[t := set_delete h s]> (handlers b)
       | None => handlers b
       end;
     app := app b;
     log := log b ++ [EvUnsubscribe t h] |}.

Definition apply_op (b : Bus) (o : BusOp) : Bus :=
  match o with
  | OpSubscribe t h => subscribe t h b
  | OpUnsubscribe t h => unsubscribe t h b
  end.

(** One call [h(msg.data)] made by the [forEach] callback. *)
Definition invoke (t : string) (h : HandlerId) (payload : JSValue) (b : Bus)
  : Bus * bool :=
  let r := behaviour h payload (app b) in
  let b1 := {| handlers := handlers b;
               app := out_state r;
               log := log b ++ [EvInvoke t h payload] |} in
  let b2 := fold_left apply_op (out_ops r) b1 in
  if out_throws r
  then ({| handlers := handlers b2; app := app b2;
           log := log b2 ++ [EvThrow t h] |}, true)
  else (b2, false).

(** [Set.prototype.forEach] on the set stored under [t]: the index walks the
    live [[SetData]], whose length is read again after every callback;
    empty slots are skipped; an exception leaves the loop. *)
Fixpoint forEach (fuel : nat) (t : string) (payload : JSValue) (index : nat)
    (b : Bus) : Completion * Bus :=
  match fuel with
  | O => (OutOfFuel, b)
  | S fuel' =>
      match default [] (handlers b !! t) !! index with
      | None => (Normal, b)
      | Some None => forEach fuel' t payload (S index) b
      | Some (Some h) =>
          let '(b', threw) := invoke t h payload b in
          if threw then (Thrown, b')
          else forEach fuel' t payload (S index) b'
      end
  end.

(** An inbound frame after [JSON.parse(event.data)]. *)
Inductive Frame : Type :=
  | Malformed                       (* JSON.parse throws *)
  | Decoded (msg : JSValue).

(** [ws.onmessage], lines 36-44. The [try] covers the parse, the property
    reads and the whole [forEach]. *)
Definition onmessage (fuel : nat) (f : Frame) (b : Bus) : Completion * Bus :=
  match f with
  | Malformed => (Normal, b)
  | Decoded msg =>
      match get_prop msg "type" with
      | None => (Normal, b)
      | Some (JStr t) =>
          match handlers b !! t with
          | Some _ =>
              match forEach fuel t (get_prop_opt msg "data") 0 b with
              | (Thrown, b') => (Normal, b')
              | r => r
              end
          | None => (Normal, b)
          end
      | Some _ => (Normal, b)
      end
  end.

(** What the rest of the application can do to the registry. *)
Inductive Cmd : Type :=
  | CmdSubscribe (t : string) (h : HandlerId)
  | CmdUnsubscribe (t : string) (h : HandlerId)
  | CmdMessage (f : Frame).

Definition exec (fuel : nat) (b : Bus) (c : Cmd) : Bus :=
  match c with
  | CmdSubscribe t h => subscribe t h b
  | CmdUnsubscribe t h => unsubscribe t h b
  | CmdMessage f => snd (onmessage fuel f b)
  end.

Definition run (fuel : nat) (cmds : list Cmd) (b : Bus) : Bus :=
  fold_left (exec fuel) cmds b.

End Bus.

Arguments Outcome : clear implicits.
Arguments Bus : clear implicits.

End EventBus.

(** ** Connection life cycle and [send] (WebSocketContext.tsx) *)

Module Connection.

Import EventBus.

(** [WebSocket.readyState] *)
Inductive ReadyState : Type := CONNECTING | OPEN | CLOSING | CLOSED.

Definition is_open (r : ReadyState) : bool :=
  match r with OPEN => true | _ => false end.

Definition is_closed (r : ReadyState) : bool :=
  match r with CLOSED => true | _ => false end.

(** The delay of [setTimeout(connect, 3000)], in milliseconds. *)
Definition RECONNECT_DELAY : Z := 3000.

(** Own enumerable properties copied by an object spread [...v]. *)
Definition spread_source (v : JSValue) : list (string * JSValue) :=
  match v with
  | JObj fields => fields
  | JArr items => imap (fun i x => (pretty i, x)) items
  | JStr s => imap (fun i c => (pretty i, JStr (String c ""))) (String.list_ascii_of_string s)
  | _ => []
  end.

(** [{ type, ...((data as object) || {}) }], line 78. *)
Definition envelope (type : string) (data : JSValue) : list (string * JSValue) :=
  fold_left (fun o kv => obj_set o kv.1 kv.2)
            (spread_source (if truthy data then data else JObj []))
            [("type", JStr type)].

Section Provider.

Context {St : Type}.
Variable behaviour : HandlerId -> JSValue -> St -> Outcome St.

(** Serialisation is left to the platform. *)
Variable JSON_stringify : JSValue -> string.

Record Provider : Type := mkProvider {
  sockets : list ReadyState;            (* every WebSocket constructed, by creation index *)
  wsRef : option nat;                   (* wsRef.current *)
  connected : bool;                     (* React state *)
  reconnectTimeoutRef : option nat;     (* reconnectTimeoutRef.current *)
  timers : list (nat * Z);              (* pending setTimeout(connect, _) : id, due time *)
  timer_seq : nat;                      (* next timer id *)
  clock : Z;                            (* milliseconds *)
  outbox : list (nat * string);         (* ws.send calls: socket, text *)
  connects : list Z;                    (* time of every connect() call *)
  bus : Bus St                          (* handlersRef.current and what handlers touch *)
}.

Definition init (st : St) : Provider :=
  {| sockets := []; wsRef := None; connected := false;
     reconnectTimeoutRef := None; timers := []; timer_seq := 0; clock := 0;
     outbox := []; connects := []; bus := empty_bus st |}.

(** [connect], lines 29-53 (in the browser, where [window] is defined):
    construct a socket, attach the four callbacks, store it in [wsRef]. *)
Definition connect (p : Provider) : Provider :=
  {| sockets := sockets p ++ [CONNECTING];
     wsRef := Some (length (sockets p));
     connected := connected p;
     reconnectTimeoutRef := reconnectTimeoutRef p;
     timers := timers p; timer_seq := timer_seq p; clock := clock p;
     outbox := outbox p;
     connects := connects p ++ [clock p];
     bus := bus p |}.

Definition set_ready (i : nat) (r : ReadyState) (p : Provider) : Provider :=
  {| sockets := <[i := r]> (sockets p);
     wsRef := wsRef p; connected := connected p;
     reconnectTimeoutRef := reconnectTimeoutRef p;
     timers := timers p; timer_seq := timer_seq p; clock := clock p;
     outbox := outbox p; connects := connects p; bus := bus p |}.

Definition set_connected (c : bool) (p : Provider) : Provider :=
  {| sockets := sockets p; wsRef := wsRef p; connected := c;
     reconnectTimeoutRef := reconnectTimeoutRef p;
     timers := timers p; timer_seq := timer_seq p; clock := clock p;
     outbox := outbox p; connects := connects p; bus := bus p |}.

(** [WebSocket.prototype.close]: starts the closing handshake of a socket
    that is connecting or open (the close event follows later); no effect
    on one that is closing or closed. *)
Definition ws_close (i : nat) (p : Provider) : Provider :=
  match sockets p !! i with
  | Some CONNECTING | Some OPEN => set_ready i CLOSING p
  | _ => p
  end.

(** [reconnectTimeoutRef.current = setTimeout(connect, 3000)] *)
Definition schedule_reconnect (p : Provider) : Provider :=
  {| sockets := sockets p; wsRef := wsRef p; connected := connected p;
     reconnectTimeoutRef := Some (timer_seq p);
     timers := timers p ++ [(timer_seq p, (clock p + RECONNECT_DELAY)%Z)];
     timer_seq := S (timer_seq p); clock := clock p;
     outbox := outbox p; connects := connects p; bus := bus p |}.

Definition remove_timer (n : nat) (p : Provider) : Provider :=
  {| sockets := sockets p; wsRef := wsRef p; connected := connected p;
     reconnectTimeoutRef := reconnectTimeoutRef p;
     timers := filter (fun t => t.1 ≠ n) (timers p);
     timer_seq := timer_seq p; clock := clock p;
     outbox := outbox p; connects := connects p; bus := bus p |}.

(** [clearTimeout(id)]; [clearTimeout(undefined)] does nothing. *)
Definition clearTimeout (id : option nat) (p : Provider) : Provider :=
  match id with
  | Some n => remove_timer n p
  | None => p
  end.

(** [ws.onopen], line 34. *)
Definition onopen (p : Provider) : Provider := set_connected true p.

(** [ws.onclose], lines 46-49. *)
Definition onclose (p : Provider) : Provider :=
  schedule_reconnect (set_connected false p).

(** [ws.onerror], line 51; [ws] is the socket the callback was attached to. *)
Definition onerror (i : nat) (p : Provider) : Provider := ws_close i p.

(** Effect body and cleanup, lines 55-61. *)
Definition mount (p : Provider) : Provider := connect p.

Definition unmount (p : Provider) : Provider :=
  let p1 := clearTimeout (reconnectTimeoutRef p) p in
  match wsRef p1 with
  | Some i => ws_close i p1
  | None => p1
  end.

(** [send], lines 76-80. *)
Definition send (type : string) (data : JSValue) (p : Provider) : Provider :=
  match wsRef p with
  | Some i =>
      match sockets p !! i with
      | Some OPEN =>
          {| sockets := sockets p; wsRef := wsRef p; connected := connected p;
             reconnectTimeoutRef := reconnectTimeoutRef p;
             timers := timers p; timer_seq := timer_seq p; clock := clock p;
             outbox := outbox p ++ [(i, JSON_stringify (JObj (envelope type data)))];
             connects := connects p; bus := bus p |}
      | _ => p
      end
  | None => p
  end.

Definition with_bus (b : Bus St) (p : Provider) : Provider :=
  {| sockets := sockets p; wsRef := wsRef p; connected := connected p;
     reconnectTimeoutRef := reconnectTimeoutRef p;
     timers := timers p; timer_seq := timer_seq p; clock := clock p;
     outbox := outbox p; connects := connects p; bus := b |}.

Definition set_clock (t : Z) (p : Provider) : Provider :=
  {| sockets := sockets p; wsRef := wsRef p; connected := connected p;
     reconnectTimeoutRef := reconnectTimeoutRef p;
     timers := timers p; timer_seq := timer_seq p; clock := t;
     outbox := outbox p; connects := connects p; bus := bus p |}.

(** What happens to the provider: React mounting and unmounting it, the
    browser delivering socket events and timer expiries, time passing, and
    components calling the context functions. *)
Inductive Input : Type :=
  | Mount
  | Unmount
  | SocketOpen (i : nat)
  | SocketMessage (i : nat) (f : Frame)
  | SocketError (i : nat)
  | SocketClose (i : nat)
  | TimerFire (id : nat)
  | Advance (ms : Z)
  | Send (type : string) (data : JSValue)
  | Subscribe (t : string) (h : HandlerId)
  | Unsubscribe (t : string) (h : HandlerId).

Definition timer_due (id : nat) (p : Provider) : bool :=
  existsb (fun t => Nat.eqb t.1 id && (t.2 <=? clock p)%Z) (timers p).

(** One input; [None] when the platform cannot deliver it in this state
    (an open event on a socket that is not connecting, a close event on a
    closed socket, a timer that is not pending or not yet due). *)
Definition step (fuel : nat) (x : Input) (p : Provider) : option Provider :=
  match x with
  | Mount => Some (mount p)
  | Unmount => Some (unmount p)
  | SocketOpen i =>
      match sockets p !! i with
      | Some CONNECTING => Some (onopen (set_ready i OPEN p))
      | _ => None
      end
  | SocketMessage i f =>
      match sockets p !! i with
      | Some OPEN => Some (with_bus (onmessage behaviour fuel f (bus p)).2 p)
      | _ => None
      end
  | SocketError i =>
      match sockets p !! i with
      | Some r => if is_closed r then None else Some (onerror i p)
      | None => None
      end
  | SocketClose i =>
      match sockets p !! i with
      | Some r => if is_closed r then None else Some (onclose (set_ready i CLOSED p))
      | None => None
      end
  | TimerFire id =>
      if timer_due id p
      then Some (connect (remove_timer id p))
      else None
  | Advance ms =>
      if (0 <=? ms)%Z then Some (set_clock (clock p + ms)%Z p) else None
  | Send type data => Some (send type data p)
  | Subscribe t h => Some (with_bus (subscribe t h (bus p)) p)
  | Unsubscribe t h => Some (with_bus (unsubscribe t h (bus p)) p)
  end.

Fixpoint steps (fuel : nat) (xs : list Input) (p : Provider) : option Provider :=
  match xs with
  | [] => Some p
  | x :: rest =>
      match step fuel x p with
      | Some p' => steps fuel rest p'
      | None => None
      end
  end.

End Provider.

Arguments Provider : clear implicits.

End Connection.

(** ** The SWR caches and their event handlers (useDashboard.ts, useCoins.ts) *)

Module ResourceCache.

Import EventBus.

(** One [useSWR] cache entry: the value it holds ([undefined] before the
    first response) and how many revalidation pulls [mutate] has started. *)
Record SWR : Type := mkSWR {
  data : JSValue;
  pulls : nat
}.

(** [mutate(v, { revalidate: false })]: store [v], fetch nothing. *)
Definition mutate_no_revalidate (v : JSValue) (c : SWR) : SWR :=
  {| data := v; pulls := pulls c |}.

(** [mutate()]: keep the value, start a pull. *)
Definition mutate_revalidate (c : SWR) : SWR :=
  {| data := data c; pulls := S (pulls c) |}.

(** The two caches of the application. *)
Record Caches : Type := mkCaches {
  dashboard : SWR;        (* key "/api/dashboard" *)
  coins : SWR             (* key "/api/coins" *)
}.

(** Modelled from the spec: [hooks/useWebSocket.ts] is not among the
    sources. The spec has every cache subscribe on the provider's event bus
    and read the connection manager's open/closed flag, so the hook is taken
    to hand out the provider's context value unchanged: [subscribe] is
    [EventBus.subscribe] on the provider's registry, and [connected] is the
    provider's flag. *)
Definition useWebSocket_connected {St : Type} (p : Connection.Provider St) : bool :=
  Connection.connected p.

(** [refreshInterval] passed to [useSWR], in milliseconds. *)
Definition useDashboard_refreshInterval (connected : bool) : Z :=
  if connected then 0 else 30000.

Definition useCoins_refreshInterval (connected : bool) : Z := 60000.

(** SWR polls every [refreshInterval] milliseconds; 0 switches polling off. *)
Definition polling_active (refreshInterval : Z) : bool :=
  negb (Z.eqb refreshInterval 0).

Inductive Resource : Type := DashboardCache | CoinListCache.

Definition refreshInterval (r : Resource) (connected : bool) : Z :=
  match r with
  | DashboardCache => useDashboard_refreshInterval connected
  | CoinListCache => useCoins_refreshInterval connected
  end.

(** The three closures the hooks register. *)
Definition H_INITIAL_STATE : HandlerId := 0.
Definition H_DASHBOARD_UPDATE : HandlerId := 1.
Definition H_BLACKLIST_UPDATED : HandlerId := 2.

(** useDashboard.ts lines 21-26. *)
Definition on_initial_state (d : JSValue) (st : Caches) : Caches :=
  let payload := d in
  if truthy (get_prop_opt payload "dashboard")
  then {| dashboard := mutate_no_revalidate (get_prop_opt payload "dashboard") (dashboard st);
          coins := coins st |}
  else st.

(** useDashboard.ts lines 28-30. *)
Definition on_dashboard_update (d : JSValue) (st : Caches) : Caches :=
  {| dashboard := mutate_no_revalidate d (dashboard st); coins := coins st |}.

(** useCoins.ts line 20. *)
Definition on_blacklist_updated (d : JSValue) (st : Caches) : Caches :=
  {| dashboard := dashboard st; coins := mutate_revalidate (coins st) |}.

Definition quiet (st : Caches) : Outcome Caches :=
  {| out_state := st; out_ops := []; out_throws := false |}.

Definition behaviour (h : HandlerId) (payload : JSValue) (st : Caches) : Outcome Caches :=
  match h with
  | 0 => quiet (on_initial_state payload st)
  | 1 => quiet (on_dashboard_update payload st)
  | 2 => quiet (on_blacklist_updated payload st)
  | _ => quiet st
  end.

(** The subscriptions made by the hooks' effects. *)
Definition useDashboard_effect (b : Bus Caches) : Bus Caches :=
  subscribe "dashboard_update" H_DASHBOARD_UPDATE
    (subscribe "initial_state" H_INITIAL_STATE b).

Definition useDashboard_cleanup (b : Bus Caches) : Bus Caches :=
  unsubscribe "dashboard_update" H_DASHBOARD_UPDATE
    (unsubscribe "initial_state" H_INITIAL_STATE b).

Definition useCoins_effect (b : Bus Caches) : Bus Caches :=
  subscribe "blacklist_updated" H_BLACKLIST_UPDATED b.

Definition hooks_mounted (st : Caches) : Bus Caches :=
  useCoins_effect (useDashboard_effect (empty_bus st)).

Definition receive (fuel : nat) (f : Frame) (b : Bus Caches) : Bus Caches :=
  (onmessage behaviour fuel f b).2.

End ResourceCache.

(** ** The coin table: filter, sort comparator, sort toggle (CoinTable) *)

Module ViewTable.

(** What [a[sortKey]] can evaluate to on a row: the field types of
    [CoinData] are string, number, boolean and null; a field missing from
    the fetched JSON reads as [undefined]. *)
Inductive Cell : Type :=
  | CUndefined
  | CNull
  | CStr (s : string)
  | CBool (b : bool)
  | CNum (x : Q).

Inductive SortDir : Type := asc | desc.

Definition is_nullish (c : Cell) : bool :=
  match c with
  | CNull | CUndefined => true
  | _ => false
  end.

(** [Number(b)] *)
Definition Number_of_bool (b : bool) : Q := if b then 1 else 0.

(** A comparator result is a JavaScript number: a rational, or NaN ([None]).
    The sort asks one thing of it, whether it is less than zero, and NaN is
    not. *)
Definition negative (order : option Q) : bool :=
  match order with
  | Some x => (Qnum x <? 0)%Z
  | None => false
  end.

(** [Array.prototype.sort(cmp)]. ECMAScript fixes the result for a
    consistent comparator: the rows in order, rows that compare equal in
    the order they had. The comparator of the coin table is not consistent
    as written, it answers 1 for two missing values in either order, and
    for such a comparator the language leaves the order to the engine. The
    engine modelled is V8 (Node, Chrome): its sort puts one question to the
    comparator, whether [cmp(a, b) < 0]. Asked that way two missing values
    tie, the answers are those of a consistent comparator, and the result is
    the stable arrangement under that test, whatever the algorithm that
    computes it: here by insertion, every element, left to right, moved
    leftwards past the elements [e] of the sorted prefix for which
    [cmp(x, e) < 0]. The prefix is kept reversed, so the scan starts at its
    right end. *)
Fixpoint insert_from_right {A : Type} (cmp : A -> A -> option Q) (x : A)
    (prefix_rev : list A) : list A :=
  match prefix_rev with
  | [] => [x]
  | e :: rest =>
      if negative (cmp x e) then e :: insert_from_right cmp x rest
      else x :: e :: rest
  end.

Definition array_sort {A : Type} (cmp : A -> A -> option Q) (l : list A) : list A :=
  rev (fold_left (fun prefix_rev x => insert_from_right cmp x prefix_rev) l []).

(** The same arrangement computed by merging: of two sorted runs the head
    of the left one is taken unless [cmp(right, left) < 0]. *)
Fixpoint merge {A : Type} (cmp : A -> A -> option Q) (l r : list A) : list A :=
  let fix merge_right (r : list A) : list A :=
    match l, r with
    | [], _ => r
    | _, [] => l
    | a :: l', b :: r' =>
        if negative (cmp b a) then b :: merge_right r' else a :: merge cmp l' r
    end in
  merge_right r.

Fixpoint merge_sort_upto {A : Type} (cmp : A -> A -> option Q) (depth : nat)
    (l : list A) : list A :=
  match depth with
  | O => l
  | S depth' =>
      match l with
      | [] | [_] => l
      | _ =>
          let half := Nat.div2 (length l) in
          merge cmp (merge_sort_upto cmp depth' (take half l))
                    (merge_sort_upto cmp depth' (drop half l))
      end
  end.

(** The recursion halves the array, so its length bounds the depth. *)
Definition merge_sort {A : Type} (cmp : A -> A -> option Q) (l : list A) : list A :=
  merge_sort_upto cmp (length l) l.

(** [String.prototype.toLowerCase] on ASCII text (coin tickers). *)
Definition lower_ascii (c : ascii) : ascii :=
  let n := nat_of_ascii c in
  if (65 <=? n)%nat && (n <=? 90)%nat then ascii_of_nat (n + 32) else c.

Fixpoint toLowerCase (s : string) : string :=
  match s with
  | EmptyString => EmptyString
  | String c rest => String (lower_ascii c) (toLowerCase rest)
  end.

(** [s.includes(q)] *)
Fixpoint includes (s q : string) : bool :=
  if String.prefix q s then true
  else match s with
       | EmptyString => false
       | String _ rest => includes rest q
       end.

(** [CoinData], lib/types.ts. *)
Record CoinData : Type := mkCoinData {
  coin : string;
  mark_price : Q;
  funding_rate : Q;
  open_interest : Q;
  trade_count : Q;
  win_rate : option Q;
  total_pnl : option Q;
  confidence_adjustment : Q;
  blacklisted : bool
}.

(** [keyof CoinData] *)
Inductive SortKey : Type :=
  | K_coin | K_mark_price | K_funding_rate | K_open_interest | K_trade_count
  | K_win_rate | K_total_pnl | K_confidence_adjustment | K_blacklisted.

#[global] Instance SortKey_eq_dec : EqDecision SortKey.
Proof. solve_decision. Defined.

Definition nullable (x : option Q) : Cell :=
  match x with
  | Some q => CNum q
  | None => CNull
  end.

(** [c[key]] *)
Definition coin_field (c : CoinData) (key : SortKey) : Cell :=
  match key with
  | K_coin => CStr (coin c)
  | K_mark_price => CNum (mark_price c)
  | K_funding_rate => CNum (funding_rate c)
  | K_open_interest => CNum (open_interest c)
  | K_trade_count => CNum (trade_count c)
  | K_win_rate => nullable (win_rate c)
  | K_total_pnl => nullable (total_pnl c)
  | K_confidence_adjustment => CNum (confidence_adjustment c)
  | K_blacklisted => CBool (blacklisted c)
  end.

(** The sort state of the component: [sortKey], [sortDir]. *)
Record SortSpec : Type := mkSortSpec {
  sortKey : SortKey;
  sortDir : SortDir
}.

(** [useState("coin")], [useState("asc")] *)
Definition initial_sort : SortSpec := {| sortKey := K_coin; sortDir := asc |}.

Definition flip (d : SortDir) : SortDir :=
  match d with asc => desc | desc => asc end.

(** [handleSort], lines 163-173. *)
Definition handleSort (key : SortKey) (s : SortSpec) : SortSpec :=
  if decide (sortKey s = key)
  then {| sortKey := sortKey s; sortDir := flip (sortDir s) |}
  else {| sortKey := key; sortDir := asc |}.

Section Engine.

(** Supplied by the platform: [String.prototype.localeCompare] and the
    string case of ToNumber ([None] is NaN). *)
Variable localeCompare : string -> string -> Q.
Variable StringToNumber : string -> option Q.

Definition ToNumber (c : Cell) : option Q :=
  match c with
  | CUndefined => None
  | CNull => Some 0%Q
  | CStr s => StringToNumber s
  | CBool b => Some (Number_of_bool b)
  | CNum x => Some x
  end.

(** [x - y] on JavaScript numbers. *)
Definition minus (x y : option Q) : option Q :=
  match x, y with
  | Some a, Some b => Some (a - b)%Q
  | _, _ => None
  end.

Section Rows.

Context {Row Key : Type}.
Variable field : Row -> Key -> Cell.

(** The callback given to [list.sort], lines 179-193. *)
Definition comparator (key : Key) (dir : SortDir) (a b : Row) : option Q :=
  let av := field a key in
  let bv := field b key in
  if is_nullish av then Some 1%Q
  else if is_nullish bv then Some (-1)%Q
  else
    match av, bv with
    | CStr x, CStr y =>
        Some (match dir with
              | asc => localeCompare x y
              | desc => localeCompare y x
              end)
    | CBool x, CBool y =>
        Some (match dir with
              | asc => (Number_of_bool x - Number_of_bool y)%Q
              | desc => (Number_of_bool y - Number_of_bool x)%Q
              end)
    | _, _ =>
        match dir with
        | asc => minus (ToNumber av) (ToNumber bv)
        | desc => minus (ToNumber bv) (ToNumber av)
        end
    end.

Definition sort_rows (key : Key) (dir : SortDir) (rows : list Row) : list Row :=
  array_sort (comparator key dir) rows.

End Rows.

(** Line 176-177: the rows kept by the search box. *)
Definition filter_rows (coins : list CoinData) (search : string) : list CoinData :=
  let q := toLowerCase search in
  List.filter (fun c => includes (toLowerCase (coin c)) q) coins.

(** [filtered], lines 175-196: filter into a fresh array, sort it in place. *)
Definition filtered (coins : list CoinData) (search : string) (s : SortSpec)
  : list CoinData :=
  sort_rows coin_field (sortKey s) (sortDir s) (filter_rows coins search).

End Engine.

(** A bare column of values: each row is its own cell. For columns without
    [undefined]: the engine sets [undefined] elements of the array itself
    aside before it sorts. *)
Definition column_value (c : Cell) (_ : unit) : Cell := c.

End ViewTable.

(** ** Vocabulary of the statements *)

Module Spec.

Import EventBus Connection.

(** The invocations recorded in a stretch of history. *)
Definition invocations (evs : list Event) : list (string * HandlerId * JSValue) :=
  omap (fun e => match e with
                 | EvInvoke t h payload => Some (t, h, payload)
                 | _ => None
                 end) evs.

Definition is_throw (e : Event) : bool :=
  match e with
  | EvThrow _ _ => true
  | _ => false
  end.

(** Nothing is recorded after an exception. *)
Definition throw_is_last (evs : list Event) : Prop :=
  forall l1 t h l2, evs = l1 ++ EvThrow t h :: l2 -> l2 = [].

(** The frame the backend pushes: [{type, data}]. *)
Definition pushed (type : string) (payload : JSValue) : Frame :=
  Decoded (JObj [("type", JStr type); ("data", payload)]).

(** [h] has no unsubscription for [t] in [evs] that is not followed by a new
    subscription. *)
Definition live (t : string) (h : HandlerId) (evs : list Event) : Prop :=
  forall l1 l2, evs = l1 ++ EvUnsubscribe t h :: l2 -> EvSubscribe t h ∈ l2.

(** Every invocation that follows an unsubscription of the same handler for
    the same type has a new subscription in between. *)
Definition silent_after_unsubscribe (evs : list Event) : Prop :=
  forall t h payload l1 l2 l3,
    evs = l1 ++ EvUnsubscribe t h :: l2 ++ EvInvoke t h payload :: l3 ->
    EvSubscribe t h ∈ l2.

Section Registry.
Context {St : Type}.

Definition registered (t : string) (h : HandlerId) (b : Bus St) : Prop :=
  Some h ∈ default [] (handlers b !! t).

Definition bus_inv (b : Bus St) : Prop :=
  silent_after_unsubscribe (log b) /\
  forall t h, registered t h b -> live t h (log b).

(** The socket [wsRef] points to is open. *)
Definition transport_open (p : Provider St) : bool :=
  match wsRef p with
  | Some i =>
      match sockets p !! i with
      | Some r => is_open r
      | None => false
      end
  | None => false
  end.
(** Nothing left that could bring the connection back: no timer is
    pending and every socket ever constructed is closed. *)
Definition quiescent (p : Provider St) : Prop :=
  timers p = [] /\ Forall (fun r => r = CLOSED) (sockets p).
End Registry.

(** A handler that throws exactly when it is handler 0, and one in which
    handler 1 unsubscribes handler 2 from "x"; neither has state. *)
Definition first_throws (h : HandlerId) (payload : JSValue) (st : unit) : Outcome unit :=
  {| out_state := st; out_ops := []; out_throws := Nat.eqb h 0 |}.

Definition one_removes_two (h : HandlerId) (payload : JSValue) (st : unit) : Outcome unit :=
  {| out_state := st;
     out_ops := if Nat.eqb h 1 then [OpUnsubscribe "x" 2] else [];
     out_throws := false |}.

(** Handler 1 subscribes handler 2 to "x" while it runs. *)
Definition one_adds_two (h : HandlerId) (payload : JSValue) (st : unit) : Outcome unit :=
  {| out_state := st;
     out_ops := if Nat.eqb h 1 then [OpSubscribe "x" 2] else [];
     out_throws := false |}.

(** A stand-in serialiser and two provider states for the examples: one
    whose socket has opened, one that has not mounted yet. *)
Definition no_text (v : JSValue) : string := "".

Definition opened : Provider unit :=
  default (init tt)
    (steps first_throws no_text 1 [Mount; SocketOpen 0] (init tt)).

Definition unmounted : Provider unit := init tt.

(** No row with a value comes after a row without one. *)
Fixpoint nulls_at_end {Row : Type} (nullish : Row -> bool) (l : list Row) : Prop :=
  match l with
  | [] => True
  | r :: rest =>
      if nullish r then Forall (fun r' => nullish r' = true) rest
      else nulls_at_end nullish rest
  end.

(** [l] is some rows that have a value, followed by rows that have none. *)
Definition nulls_last {Row : Type} (nullish : Row -> bool) (l : list Row) : Prop :=
  exists present missing,
    l = present ++ missing /\
    Forall (fun r => nullish r = false) present /\
    Forall (fun r => nullish r = true) missing.

(** [q] occurs in [s] as a substring. *)
Definition contains (s q : string) : Prop :=
  exists pre post, s = String.append pre (String.append q post).

(** A coin with nothing but a ticker, and the columns of the examples. *)
Definition ticker (name : string) : ViewTable.CoinData :=
  {| ViewTable.coin := name;
     ViewTable.mark_price := 0; ViewTable.funding_rate := 0;
     ViewTable.open_interest := 0; ViewTable.trade_count := 0;
     ViewTable.win_rate := None; ViewTable.total_pnl := None;
     ViewTable.confidence_adjustment := 0; ViewTable.blacklisted := false |}.

Definition three_coins : list ViewTable.CoinData :=
  [ticker "BTC"; ticker "ETH"; ticker "SOL"].

Definition numbers_with_nulls : list ViewTable.Cell :=
  [ViewTable.CNum 3; ViewTable.CNull; ViewTable.CNum 1; ViewTable.CNull;
   ViewTable.CNum 2].

(** Rows that are objects with a name and a value: the value of B is
    absent, the one of D is [null]. *)
Definition labelled_value (r : string * ViewTable.Cell) (_ : unit) : ViewTable.Cell :=
  r.2.

Definition labelled_rows : list (string * ViewTable.Cell) :=
  [("A", ViewTable.CNum 3); ("B", ViewTable.CUndefined); ("C", ViewTable.CNum 1);
   ("D", ViewTable.CNull); ("E", ViewTable.CNum 2)].

(** Five coins of which two have no closed trade yet. *)
Definition coin_with_pnl (name : string) (pnl : option Q) : ViewTable.CoinData :=
  {| ViewTable.coin := name;
     ViewTable.mark_price := 0; ViewTable.funding_rate := 0;
     ViewTable.open_interest := 0; ViewTable.trade_count := 0;
     ViewTable.win_rate := None; ViewTable.total_pnl := pnl;
     ViewTable.confidence_adjustment := 0; ViewTable.blacklisted := false |}.

Definition pnl_rows : list ViewTable.CoinData :=
  [coin_with_pnl "A" (Some 3%Q); coin_with_pnl "B" None; coin_with_pnl "C" (Some 1%Q);
   coin_with_pnl "D" None; coin_with_pnl "E" (Some 2%Q)].

End Spec.

(** ** The rest of the provider, the hooks and the views

    What the sections below add to the model: the reachable states of the
    provider, the values the hooks return, the
    mutation of [useCoins], the row selection of the coin table, the trade
    history table, and the text helpers of [lib/formatters.ts]. *)

Module Lifecycle.

Import EventBus Connection.

Definition is_mount (x : Input) : bool :=
  match x with Mount => true | _ => false end.

Definition is_close_event (x : Input) : bool :=
  match x with SocketClose _ => true | _ => false end.

Section States.
Context {St : Type}.

(** A socket that is not closed is the one [wsRef] holds. *)
Definition live_socket_is_current (p : Provider St) : Prop :=
  forall i r, sockets p !! i = Some r -> r <> CLOSED -> wsRef p = Some i.

(** A reconnection is pending only while every socket is closed, and then
    it is the single timer [reconnectTimeoutRef] holds. *)
Definition one_pending_reconnect (p : Provider St) : Prop :=
  timers p = [] \/
  (Forall (fun r => r = CLOSED) (sockets p) /\
   exists id due, timers p = [(id, due)] /\ reconnectTimeoutRef p = Some id).

(** [connected] is set while the current socket is open, and only while it
    is open or closing. *)
Definition flag_follows_socket (p : Provider St) : Prop :=
  (forall i, wsRef p = Some i -> sockets p !! i = Some OPEN -> connected p = true) /\
  (connected p = true ->
   exists i r, wsRef p = Some i /\ sockets p !! i = Some r /\
               (r = OPEN \/ r = CLOSING)).

(** The states of a provider that was mounted once: the sockets it has
    gone through are closed, [wsRef] holds the latest one, and the flag and
    the timer go with the state of that one. *)
Definition mounted_once (p : Provider St) : Prop :=
  exists olds cur,
    sockets p = olds ++ [cur] /\
    Forall (fun r => r = CLOSED) olds /\
    wsRef p = Some (length olds) /\
    match cur with
    | CONNECTING => timers p = [] /\ connected p = false
    | OPEN => timers p = [] /\ connected p = true
    | CLOSING => timers p = []
    | CLOSED =>
        connected p = false /\
        (timers p = [] \/
         exists id due, timers p = [(id, due)] /\ reconnectTimeoutRef p = Some id)
    end.

End States.

(** Two example runs: the socket opened and closed, a reconnection is
    pending; and the provider just mounted. *)
Definition open_then_close : list Input := [SocketOpen 0; SocketClose 0].

Definition reconnecting : Provider unit :=
  default (init tt)
    (steps Spec.first_throws Spec.no_text 1 (Mount :: open_then_close) (init tt)).

Definition opened_once : Provider unit :=
  default (init tt)
    (steps Spec.first_throws Spec.no_text 1 [Mount; SocketOpen 0] (init tt)).

End Lifecycle.

Module Hooks.

Import EventBus ResourceCache.

(** The type of a decoded frame, when it has one that is a string. *)
Definition frame_type (f : Frame) : option string :=
  match f with
  | Decoded msg =>
      match get_prop msg "type" with
      | Some (JStr t) => Some t
      | _ => None
      end
  | Malformed => None
  end.

(** What a frame hands to the handlers: [msg.data]. *)
Definition frame_payload (f : Frame) : JSValue :=
  match f with
  | Decoded msg => get_prop_opt msg "data"
  | Malformed => JUndefined
  end.

(** What the three handlers of the hooks make of a frame. *)
Definition react (f : Frame) (st : Caches) : Caches :=
  match frame_type f with
  | Some t =>
      if String.eqb t "initial_state" then on_initial_state (frame_payload f) st
      else if String.eqb t "dashboard_update" then on_dashboard_update (frame_payload f) st
      else if String.eqb t "blacklist_updated" then on_blacklist_updated (frame_payload f) st
      else st
  | None => st
  end.

(** useDashboard.ts line 37: [isLoading: !data && !error]; [error] is what
    the fetcher threw, [undefined] when it did not. *)
Definition isLoading (data error : JSValue) : bool :=
  negb (truthy data) && negb (truthy error).

(** What [fetch] can come back with: a response, whatever its status, or a
    rejection (network failure). *)
Inductive FetchResult : Type :=
  | Responded (status : nat)
  | Rejected.

(** useCoins.ts line 35, after the [await]: [mutate()] runs when the fetch
    promise resolved; a rejection leaves the function there ([true] in the
    second component: the promise of [toggleBlacklist] is rejected). *)
Definition toggleBlacklist_resume (r : FetchResult) (st : Caches) : Caches * bool :=
  match r with
  | Responded _ =>
      ({| dashboard := dashboard st; coins := mutate_revalidate (coins st) |}, false)
  | Rejected => (st, true)
  end.

End Hooks.

Module Views.

Import ViewTable.

(** [String.prototype.toUpperCase] on ASCII text. *)
Definition upper_ascii (c : ascii) : ascii :=
  let n := nat_of_ascii c in
  if (97 <=? n)%nat && (n <=? 122)%nat then ascii_of_nat (n - 32) else c.

Fixpoint toUpperCase (s : string) : string :=
  match s with
  | EmptyString => EmptyString
  | String c rest => String (upper_ascii c) (toUpperCase rest)
  end.

(** CoinTable, the row's [onClick]:
    [setSelectedCoin(selectedCoin === c.coin ? null : c.coin)]. *)
Definition selectRow (c : string) (selectedCoin : option string) : option string :=
  match selectedCoin with
  | Some sel => if String.eqb sel c then None else Some c
  | None => Some c
  end.

(** CoinTable: the rows under which a [CoinDetail] is rendered,
    [selectedCoin === c.coin]. *)
Definition expanded (rows : list CoinData) (selectedCoin : option string)
  : list CoinData :=
  List.filter (fun c => match selectedCoin with
                        | Some sel => String.eqb sel (coin c)
                        | None => false
                        end) rows.

(** [ClosedTrade], lib/types.ts. *)
Inductive Side : Type := long | short.

Record ClosedTrade : Type := mkClosedTrade {
  trade_coin : string;
  side : Side;
  entry : Q;
  exit : Q;
  size : Q;
  pnl : Q;
  reason : string;
  closed_at : Q
}.

(** TradesTable line 22: [[...trades].sort((a, b) => b.closed_at - a.closed_at)]. *)
Definition by_closed_at_desc (a b : ClosedTrade) : option Q :=
  Some (closed_at b - closed_at a)%Q.

Definition TradesTable_sorted (trades : list ClosedTrade) : list ClosedTrade :=
  array_sort by_closed_at_desc trades.

(** CoinDetail lines 18-20 and the slice of line 124: the trades of the
    coin, tickers compared in upper case, and the ten that are listed. *)
Definition coinTrades (c : CoinData) (trades : list ClosedTrade) : list ClosedTrade :=
  List.filter (fun t => String.eqb (toUpperCase (trade_coin t)) (toUpperCase (coin c)))
              trades.

Definition listed_trades (c : CoinData) (trades : list ClosedTrade) : list ClosedTrade :=
  take 10 (coinTrades c trades).

(** The value a sortable cell is ordered by, when it has one. *)
Definition sort_value (c : Cell) : option Q :=
  match c with
  | CNum x => Some x
  | CBool b => Some (Number_of_bool b)
  | _ => None
  end.

Definition numeric_or_missing (c : Cell) : bool :=
  match c with
  | CStr _ => false
  | _ => true
  end.

(** [a] may stand before [b] in a column sorted in direction [dir]. *)
Definition in_order (dir : SortDir) (a b : Cell) : Prop :=
  match sort_value a, sort_value b with
  | Some x, Some y =>
      match dir with
      | asc => (x <= y)%Q
      | desc => (y <= x)%Q
      end
  | Some _, None => True
  | None, Some _ => False
  | None, None => True
  end.

(** The order of the rows of a sorted column. *)
Definition column_order (key : SortKey) (dir : SortDir) (a b : CoinData) : Prop :=
  in_order dir (coin_field a key) (coin_field b key).

(** The order of the trade history: later closing times first. *)
Definition newest_first (a b : ClosedTrade) : Prop :=
  (closed_at b <= closed_at a)%Q.

(** Header clicks, one after the other. *)
Definition clicks (keys : list SortKey) (s : SortSpec) : SortSpec :=
  fold_left (fun s key => handleSort key s) keys s.

(** Text on which the ASCII case mappings above are the platform's. *)
Definition ascii_text (s : string) : bool :=
  forallb (fun c => (nat_of_ascii c <? 128)%nat) (String.list_ascii_of_string s).

(** A payload with no own enumerable properties to spread. *)
Definition primitive (v : JSValue) : bool :=
  match v with
  | JObj _ | JArr _ | JStr _ => false
  | _ => true
  end.

Section Text.

(** Supplied by the platform: [Number.prototype.toFixed(digits)] and
    [toLocaleString("en-US", ...)] with both fraction-digit bounds set to
    [decimals]. *)
Variable toFixed : Q -> nat -> string.
Variable toLocaleString_en_US : Q -> nat -> string.

(** [v >= 0] *)
Definition nonneg (v : Q) : bool := Qle_bool 0 v.

(** lib/formatters.ts *)
Definition formatCurrency (value : Q) (decimals : nat) : string :=
  toLocaleString_en_US value decimals.

Definition formatPercent (value : Q) (decimals : nat) : string :=
  String.append (if nonneg value then "+" else "")
    (String.append (toFixed value decimals) "%").

Definition formatPnl (value : Q) : string :=
  let sign := if nonneg value then "+" else "" in
  String.append sign (toFixed (Qabs value) 2).

(** The total PnL cell of a coin: in the table row (CoinTable lines
    267-271), and in the detail panel (CoinDetail, the "Total PnL" card). *)
Definition pnl_cell (total_pnl : option Q) : string :=
  match total_pnl with
  | Some v =>
      String.append (if nonneg v then "+" else "-")
        (String.append "$" (formatCurrency (Qabs v) 2))
  | None => "—"
  end.

Definition pnl_card (total_pnl : option Q) : string :=
  match total_pnl with
  | Some v =>
      String.append (if nonneg v then "+" else "")
        (String.append "$" (formatCurrency (Qabs v) 2))
  | None => "N/A"
  end.

End Text.

End Views.

(** * Properties *)

(** ** Handler registry *)

Section RegistryFacts.

Import EventBus Spec.

Context {St : Type}.
Variable behaviour : HandlerId -> JSValue -> St -> Outcome St.

Lemma snoc_eq_app_cons {A : Type} (l : list A) (e : A) l1 x l2 :
  l ++ [e] = l1 ++ x :: l2 ->
  (l2 = [] /\ x = e /\ l = l1) \/
  (exists l2', l2 = l2' ++ [e] /\ l = l1 ++ x :: l2').
Proof.
  destruct l2 as [|y l2 _] using rev_ind; intros H.
  - left. apply app_inj_tail in H. destruct H; auto.
  - right. exists l2.
    change (l1 ++ x :: l2 ++ [y]) with (l1 ++ (x :: l2) ++ [y]) in H.
    rewrite app_assoc in H. apply app_inj_tail in H.
    destruct H as [-> ->]; auto.
Qed.

Lemma live_nil t h : live t h [].
Proof. intros l1 l2 H. destruct l1; discriminate. Qed.

Lemma live_snoc t h evs e :
  live t h evs -> e <> EvUnsubscribe t h -> live t h (evs ++ [e]).
Proof.
  intros Hl Hne l1 l2 H.
  apply snoc_eq_app_cons in H as [(_ & He & _) | (l2' & -> & H)].
  - congruence.
  - apply elem_of_app. left. eauto.
Qed.

Lemma live_snoc_subscribe t h evs : live t h (evs ++ [EvSubscribe t h]).
Proof.
  intros l1 l2 H.
  apply snoc_eq_app_cons in H as [(_ & He & _) | (l2' & -> & H)].
  - discriminate.
  - apply elem_of_app. right. apply list_elem_of_singleton. reflexivity.
Qed.

Lemma silent_nil : silent_after_unsubscribe [].
Proof. intros t h p l1 l2 l3 H. destruct l1; discriminate. Qed.

Lemma silent_snoc evs e :
  silent_after_unsubscribe evs ->
  (forall t h payload, e = EvInvoke t h payload -> live t h evs) ->
  silent_after_unsubscribe (evs ++ [e]).
Proof.
  intros Hs He t h p l1 l2 l3 H.
  apply snoc_eq_app_cons in H as [(Hnil & _) | (tl & Htl & H)].
  - destruct l2; discriminate.
  - symmetry in Htl.
    apply snoc_eq_app_cons in Htl as [(_ & Hx & ->) | (l3' & -> & ->)].
    + symmetry in Hx. eapply He; eauto.
    + eapply Hs; eauto.
Qed.

Lemma elem_of_set_add g h s :
  Some g ∈ set_add h s -> Some g ∈ s \/ g = h.
Proof.
  unfold set_add. destruct (set_has h s); auto.
  intros [?|Hin]%elem_of_app; auto.
  apply list_elem_of_singleton in Hin. right. congruence.
Qed.

Lemma elem_of_set_delete g h s :
  Some g ∈ set_delete h s -> Some g ∈ s /\ g <> h.
Proof.
  unfold set_delete. intros (e & Heq & Hin)%list_elem_of_fmap.
  destruct e as [h'|]; simpl in Heq.
  - destruct (Nat.eqb_spec h' h); [discriminate|].
    injection Heq as ->. auto.
  - discriminate.
Qed.

Lemma registered_subscribe t h t' h' (b : Bus St) :
  registered t' h' (subscribe t h b) ->
  registered t' h' b \/ (t' = t /\ h' = h).
Proof.
  unfold registered, subscribe; cbn [handlers].
  destruct (handlers b !! t) as [s|] eqn:E.
  - destruct (decide (t' = t)) as [->|Hne].
    + rewrite lookup_insert_eq; cbn [default]. rewrite E; cbn [default].
      intros [Hin | ->]%elem_of_set_add; auto.
    + rewrite lookup_insert_ne by congruence. auto.
  - destruct (decide (t' = t)) as [->|Hne].
    + rewrite !lookup_insert_eq; cbn [default].
      intros [Hin | ->]%elem_of_set_add; auto.
      by apply not_elem_of_nil in Hin.
    + rewrite !lookup_insert_ne by congruence. auto.
Qed.

Lemma registered_unsubscribe t h t' h' (b : Bus St) :
  registered t' h' (unsubscribe t h b) ->
  registered t' h' b /\ ~ (t' = t /\ h' = h).
Proof.
  unfold registered, unsubscribe; cbn [handlers].
  destruct (handlers b !! t) as [s|] eqn:E.
  - destruct (decide (t' = t)) as [->|Hne].
    + rewrite lookup_insert_eq, E; cbn [default].
      intros [Hin Hneq]%elem_of_set_delete. split; [exact Hin | tauto].
    + rewrite lookup_insert_ne by congruence. tauto.
  - intros Hin. split; [exact Hin|].
    intros [-> ->]. rewrite E in Hin. cbn [default] in Hin.
    by apply not_elem_of_nil in Hin.
Qed.

Lemma bus_inv_empty (st : St) : bus_inv (empty_bus st).
Proof.
  split; [apply silent_nil|].
  intros t h Hr. unfold registered in Hr. simpl in Hr.
  rewrite lookup_empty in Hr. by apply not_elem_of_nil in Hr.
Qed.

Lemma bus_inv_subscribe t h (b : Bus St) :
  bus_inv b -> bus_inv (subscribe t h b).
Proof.
  intros [Hs Hl]. split.
  - apply silent_snoc; [exact Hs | discriminate].
  - intros t' h' [Hr | [-> ->]]%registered_subscribe.
    + apply live_snoc; [auto | discriminate].
    + apply live_snoc_subscribe.
Qed.

Lemma bus_inv_unsubscribe t h (b : Bus St) :
  bus_inv b -> bus_inv (unsubscribe t h b).
Proof.
  intros [Hs Hl]. split.
  - apply silent_snoc; [exact Hs | discriminate].
  - intros t' h' [Hr Hne]%registered_unsubscribe.
    apply live_snoc; [auto|]. intros [= -> ->]. tauto.
Qed.

Lemma bus_inv_ops ops (b : Bus St) :
  bus_inv b -> bus_inv (fold_left apply_op ops b).
Proof.
  revert b. induction ops as [|[t h|t h] ops IH]; intros b Hb; simpl; auto.
  - apply IH, bus_inv_subscribe, Hb.
  - apply IH, bus_inv_unsubscribe, Hb.
Qed.

Lemma bus_inv_log_other (b : Bus St) e :
  bus_inv b ->
  (forall t h payload, e = EvInvoke t h payload -> registered t h b) ->
  (forall t h, e <> EvUnsubscribe t h) ->
  bus_inv {| handlers := handlers b; app := app b; log := log b ++ [e] |}.
Proof.
  intros [Hs Hl] Hinv Hne. split; simpl.
  - apply silent_snoc; [exact Hs|]. intros t h p ->. eapply Hl, Hinv; eauto.
  - intros t h Hr. apply live_snoc; [apply Hl, Hr | apply Hne].
Qed.

Lemma bus_inv_invoke t h payload (b : Bus St) :
  bus_inv b -> registered t h b ->
  bus_inv (invoke behaviour t h payload b).1.
Proof.
  intros Hb Hr. unfold invoke.
  set (r := behaviour h payload (app b)).
  set (b1 := {| handlers := handlers b; app := out_state r;
                log := log b ++ [EvInvoke t h payload] |}).
  assert (H1 : bus_inv b1).
  { destruct Hb as [Hs Hl]. split; simpl.
    - apply silent_snoc; [exact Hs|]. intros ? ? ? [= <- <- <-]. auto.
    - intros t' h' Hr'. apply live_snoc; [apply Hl, Hr' | discriminate]. }
  assert (H2 := bus_inv_ops (out_ops r) b1 H1).
  destruct (out_throws r); simpl; [|exact H2].
  apply (bus_inv_log_other _ (EvThrow t h) H2); discriminate.
Qed.

Lemma bus_inv_forEach fuel t payload index (b : Bus St) :
  bus_inv b -> bus_inv (forEach behaviour fuel t payload index b).2.
Proof.
  revert index b. induction fuel as [|fuel IH]; intros index b Hb; simpl; auto.
  destruct (default [] (handlers b !! t) !! index) as [[h|]|] eqn:E; simpl; auto.
  assert (Hr : registered t h b).
  { unfold registered. eapply list_elem_of_lookup_2, E. }
  pose proof (bus_inv_invoke t h payload b Hb Hr) as Hi.
  destruct (invoke behaviour t h payload b) as [b' threw]; simpl in Hi.
  destruct threw; simpl; auto.
Qed.

Lemma bus_inv_onmessage fuel f (b : Bus St) :
  bus_inv b -> bus_inv (onmessage behaviour fuel f b).2.
Proof.
  intros Hb. unfold onmessage.
  destruct f as [|msg]; simpl; auto.
  destruct (get_prop msg "type") as [[]|]; simpl; auto.
  destruct (handlers b !! s); simpl; auto.
  pose proof (bus_inv_forEach fuel s (get_prop_opt msg "data") 0 b Hb) as H.
  destruct (forEach behaviour fuel s (get_prop_opt msg "data") 0 b) as [[] b'];
    simpl in *; auto.
Qed.

Lemma bus_inv_run fuel cmds (b : Bus St) :
  bus_inv b -> bus_inv (run behaviour fuel cmds b).
Proof.
  revert b. induction cmds as [|c cmds IH]; intros b Hb; simpl; auto.
  apply IH. destruct c; simpl.
  - apply bus_inv_subscribe, Hb.
  - apply bus_inv_unsubscribe, Hb.
  - apply bus_inv_onmessage, Hb.
Qed.

End RegistryFacts.

Section Unsubscribe.

Import EventBus Spec.

Context {St : Type}.
Variable behaviour : HandlerId -> JSValue -> St -> Outcome St.

(** C9. Take any history of the registry, started empty and driven by any
    sequence of subscribe calls, unsubscribe calls and inbound frames, with
    handlers that may themselves subscribe and unsubscribe while they run.
    Cut it at an unsubscription of handler [h] for type [t] (made by the
    application or by a handler in the middle of a dispatch): as long as
    [h] is not subscribed to [t] again, [h] is not invoked for [t] in what
    follows, the rest of the running dispatch included. *)
Theorem unsubscribed_handler_not_invoked :
  forall (fuel : nat) (cmds : list Cmd) (st : St) t h l1 l2,
    log (run behaviour fuel cmds (empty_bus st)) = l1 ++ EvUnsubscribe t h :: l2 ->
    EvSubscribe t h ∉ l2 ->
    forall payload, EvInvoke t h payload ∉ l2.
Proof.
  intros fuel cmds st t h l1 l2 Hlog Hno payload Hin.
  destruct (bus_inv_run behaviour fuel cmds _ (bus_inv_empty st)) as [Hs _].
  apply list_elem_of_split in Hin as (l2a & l2b & ->).
  apply Hno, elem_of_app. left.
  eapply Hs. rewrite Hlog. reflexivity.
Qed.

End Unsubscribe.

(** Handler 1 unsubscribes handler 2 while the frame is being dispatched:
    handler 2, not yet visited, is skipped; handler 3 still runs. *)
Lemma unsubscribed_handler_not_invoked_witness :
  let payload := JNum 5 in
  let cmds := [EventBus.CmdSubscribe "x" 1; EventBus.CmdSubscribe "x" 2;
               EventBus.CmdSubscribe "x" 3;
               EventBus.CmdMessage (Spec.pushed "x" payload)] in
  let before := [EventBus.EvSubscribe "x" 1; EventBus.EvSubscribe "x" 2;
                 EventBus.EvSubscribe "x" 3; EventBus.EvInvoke "x" 1 payload] in
  let after := [EventBus.EvInvoke "x" 3 payload] in
  EventBus.log (EventBus.run Spec.one_removes_two 10 cmds (EventBus.empty_bus tt))
    = before ++ EventBus.EvUnsubscribe "x" 2 :: after /\
  (EventBus.EvSubscribe "x" 2 ∉ after) /\
  (EventBus.EvInvoke "x" 2 payload ∉ after).
Proof.
  intros payload cmds before after.
  assert (Hlog : EventBus.log
                   (EventBus.run Spec.one_removes_two 10 cmds (EventBus.empty_bus tt))
                 = before ++ EventBus.EvUnsubscribe "x" 2 :: after)
    by (vm_compute; reflexivity).
  assert (Hno : EventBus.EvSubscribe "x" 2 ∉ after)
    by (intros Hin; apply list_elem_of_singleton in Hin; discriminate).
  split; [exact Hlog | split; [exact Hno |]].
  exact (unsubscribed_handler_not_invoked Spec.one_removes_two 10 cmds tt "x" 2
           before after Hlog Hno payload).
Defined.

Section Dispatch.

Import EventBus Spec.

Context {St : Type}.
Variable behaviour : HandlerId -> JSValue -> St -> Outcome St.

Lemma invocations_app evs1 evs2 :
  invocations (evs1 ++ evs2) = invocations evs1 ++ invocations evs2.
Proof. apply omap_app. Qed.

Lemma invocations_ops ops (b : Bus St) :
  exists evs, log (fold_left apply_op ops b) = log b ++ evs /\ invocations evs = [].
Proof.
  revert b. induction ops as [|[t h|t h] ops IH]; intros b; simpl.
  - exists []. by rewrite app_nil_r.
  - destruct (IH (subscribe t h b)) as (evs & -> & Hi).
    exists (EvSubscribe t h :: evs). simpl. by rewrite <- app_assoc.
  - destruct (IH (unsubscribe t h b)) as (evs & -> & Hi).
    exists (EvUnsubscribe t h :: evs). simpl. by rewrite <- app_assoc.
Qed.

(** A handler that leaves the registry alone and returns normally. *)
Lemma invoke_quiet t h payload (b : Bus St) :
  out_ops (behaviour h payload (app b)) = [] ->
  out_throws (behaviour h payload (app b)) = false ->
  exists b', invoke behaviour t h payload b = (b', false) /\
             handlers b' = handlers b /\
             log b' = log b ++ [EvInvoke t h payload].
Proof.
  intros Hops Hthrow. unfold invoke. rewrite Hops, Hthrow. simpl. eauto.
Qed.

Lemma invoke_throwing t h payload (b : Bus St) :
  out_throws (behaviour h payload (app b)) = true ->
  exists b' evs, invoke behaviour t h payload b = (b', true) /\
                 log b' = log b ++ evs /\
                 invocations evs = [(t, h, payload)].
Proof.
  intros Hthrow. unfold invoke. rewrite Hthrow.
  set (b1 := {| handlers := handlers b;
                app := out_state (behaviour h payload (app b));
                log := log b ++ [EvInvoke t h payload] |}).
  destruct (invocations_ops (out_ops (behaviour h payload (app b))) b1)
    as (evs & Hlog & Hi).
  eexists _, (EvInvoke t h payload :: evs ++ [EvThrow t h]).
  split; [reflexivity|]. split.
  - simpl. rewrite Hlog. subst b1. simpl. by rewrite <- !app_assoc.
  - change (invocations (EvInvoke t h payload :: evs ++ [EvThrow t h]))
      with ((t, h, payload) :: invocations (evs ++ [EvThrow t h])).
    rewrite invocations_app, Hi. reflexivity.
Qed.

Lemma forEach_until_throw t payload (pre : list HandlerId) h post :
  forall (visited : list HandlerId) (b : Bus St) fuel,
    handlers b !! t = Some (Some <$> (visited ++ pre ++ h :: post)) ->
    (forall g st, g ∈ pre ->
       out_ops (behaviour g payload st) = [] /\
       out_throws (behaviour g payload st) = false) ->
    (forall st, out_throws (behaviour h payload st) = true) ->
    length pre < fuel ->
    exists b' evs,
      forEach behaviour fuel t payload (length visited) b = (Thrown, b') /\
      log b' = log b ++ evs /\
      invocations evs = (fun g => (t, g, payload)) <$> (pre ++ [h]).
Proof.
  induction pre as [|g pre IH]; intros visited b fuel Hset Hpre Hh Hfuel.
  - destruct fuel as [|fuel]; [simpl in Hfuel; lia|]. cbn [forEach].
    rewrite Hset. unfold default, from_option, id.
    rewrite list_lookup_fmap, lookup_app_r, Nat.sub_diag by lia. cbn.
    destruct (invoke_throwing t h payload b (Hh _)) as (b' & evs & -> & Hl & Hi).
    eauto.
  - destruct fuel as [|fuel]; [simpl in Hfuel; lia|]. cbn [forEach].
    rewrite Hset. unfold default, from_option, id.
    rewrite list_lookup_fmap, lookup_app_r, Nat.sub_diag by lia. cbn.
    destruct (Hpre g (app b)) as [Hops Hthrow]; [left|].
    destruct (invoke_quiet t g payload b Hops Hthrow) as (b1 & -> & Hh1 & Hl1).
    destruct (IH (visited ++ [g]) b1 fuel) as (b' & evs & Hrun & Hl & Hi).
    + rewrite Hh1, Hset, <- app_assoc. reflexivity.
    + intros g' st' Hin. apply Hpre. by right.
    + exact Hh.
    + simpl in Hfuel. lia.
    + rewrite length_app in Hrun. simpl in Hrun.
      replace (length visited + 1) with (S (length visited)) in Hrun by lia.
      exists b', (EvInvoke t g payload :: evs). split; [exact Hrun|]. split.
      * rewrite Hl, Hl1, <- app_assoc. reflexivity.
      * simpl. rewrite <- Hi. reflexivity.
Qed.

Lemma ops_do_not_throw ops (b : Bus St) :
  exists evs, log (fold_left apply_op ops b) = log b ++ evs /\
              Forall (fun e => is_throw e = false) evs.
Proof.
  revert b. induction ops as [|[t h|t h] ops IH]; intros b; simpl.
  - exists []. split; [by rewrite app_nil_r | constructor].
  - destruct (IH (subscribe t h b)) as (evs & -> & Hn).
    exists (EvSubscribe t h :: evs). simpl. rewrite <- app_assoc.
    split; [reflexivity | by constructor].
  - destruct (IH (unsubscribe t h b)) as (evs & -> & Hn).
    exists (EvUnsubscribe t h :: evs). simpl. rewrite <- app_assoc.
    split; [reflexivity | by constructor].
Qed.

Lemma invoke_events t h payload (b : Bus St) :
  exists evs,
    Forall (fun e => is_throw e = false) evs /\
    log (invoke behaviour t h payload b).1 =
    log b ++ evs ++ (if (invoke behaviour t h payload b).2
                     then [EvThrow t h] else []).
Proof.
  unfold invoke.
  set (r := behaviour h payload (app b)).
  set (b1 := {| handlers := handlers b; app := out_state r;
                log := log b ++ [EvInvoke t h payload] |}).
  destruct (ops_do_not_throw (out_ops r) b1) as (evs & Hlog & Hn).
  exists (EvInvoke t h payload :: evs). split; [by constructor|].
  destruct (out_throws r); cbn [fst snd log]; rewrite Hlog; subst b1; cbn [log].
  - by rewrite <- !app_assoc.
  - by rewrite app_nil_r, <- app_assoc.
Qed.

(** What one run of the loop records: no exception if it ends normally (or
    out of fuel), exactly one, at the very end, if it ends by one. *)
Lemma forEach_events fuel t payload index (b : Bus St) :
  exists evs,
    Forall (fun e => is_throw e = false) evs /\
    match (forEach behaviour fuel t payload index b).1 with
    | Thrown =>
        exists h, log (forEach behaviour fuel t payload index b).2
                  = log b ++ evs ++ [EvThrow t h]
    | _ => log (forEach behaviour fuel t payload index b).2 = log b ++ evs
    end.
Proof.
  revert index b. induction fuel as [|fuel IH]; intros index b; cbn [forEach].
  - exists []. split; [constructor | by rewrite app_nil_r].
  - destruct (default [] (handlers b !! t) !! index) as [[h|]|].
    + destruct (invoke_events t h payload b) as (evs1 & Hn1 & Hl1).
      destruct (invoke behaviour t h payload b) as [b1 threw]. cbn [fst snd] in Hl1.
      destruct threw.
      * exists evs1. split; [exact Hn1|]. cbn [fst snd]. eauto.
      * rewrite app_nil_r in Hl1.
        destruct (IH (S index) b1) as (evs2 & Hn2 & Hl2).
        exists (evs1 ++ evs2). split; [by apply Forall_app|].
        destruct (forEach behaviour fuel t payload (S index) b1) as [[] b2];
          cbn [fst snd] in *.
        -- by rewrite Hl2, Hl1, <- app_assoc.
        -- destruct Hl2 as [h' Hl2]. exists h'.
           by rewrite Hl2, Hl1, <- !app_assoc.
        -- by rewrite Hl2, Hl1, <- app_assoc.
    + apply IH.
    + exists []. split; [constructor | by rewrite app_nil_r].
Qed.

Lemma throw_is_last_quiet evs :
  Forall (fun e => is_throw e = false) evs -> throw_is_last evs.
Proof.
  intros Hn l1 t h l2 ->.
  apply Forall_app in Hn as [_ Hn]. apply Forall_cons in Hn as [Hn _]. discriminate.
Qed.

Lemma throw_is_last_snoc evs t h :
  Forall (fun e => is_throw e = false) evs -> throw_is_last (evs ++ [EvThrow t h]).
Proof.
  intros Hn l1 t' h' l2 H.
  apply snoc_eq_app_cons in H as [(-> & _) | (l2' & _ & ->)]; [reflexivity|].
  apply Forall_app in Hn as [_ Hn]. apply Forall_cons in Hn as [Hn _]. discriminate.
Qed.

Lemma onmessage_events fuel f (b : Bus St) :
  (onmessage behaviour fuel f b).1 <> Thrown /\
  exists evs, log (onmessage behaviour fuel f b).2 = log b ++ evs /\
              throw_is_last evs.
Proof.
  assert (Hidle : Normal <> Thrown /\
                  exists evs, log b = log b ++ evs /\ throw_is_last evs).
  { split; [discriminate|]. exists []. split; [by rewrite app_nil_r|].
    apply throw_is_last_quiet. constructor. }
  unfold onmessage. destruct f as [|msg]; cbn [fst snd]; [exact Hidle|].
  destruct (get_prop msg "type") as [[]|]; cbn [fst snd]; try exact Hidle.
  destruct (handlers b !! s); cbn [fst snd]; [|exact Hidle].
  destruct (forEach_events fuel s (get_prop_opt msg "data") 0 b) as (evs & Hn & Hl).
  destruct (forEach behaviour fuel s (get_prop_opt msg "data") 0 b) as [[] b'];
    cbn [fst snd] in *.
  - split; [discriminate|]. exists evs. split; [exact Hl|].
    by apply throw_is_last_quiet.
  - split; [discriminate|]. destruct Hl as [h Hl].
    exists (evs ++ [EvThrow s h]). split; [exact Hl|].
    by apply throw_is_last_snoc.
  - split; [discriminate|]. exists evs. split; [exact Hl|].
    by apply throw_is_last_quiet.
Qed.

(** C2, as the code has it. One [try] encloses the whole [forEach].
    Whatever the handlers do, the exception of a handler never leaves
    [onmessage], and it is the last thing that happens in that dispatch: no
    handler is invoked after it. In particular, when the handlers registered
    for the type are [pre], then [h], then [post], the ones in [pre] return
    normally without touching the registry and [h] throws, the dispatch
    invokes [pre] and [h] in order with the payload of the frame and nothing
    else; no handler in [post] runs. *)
Theorem dispatch_stops_at_first_throw :
  (forall fuel f (b : Bus St),
     (onmessage behaviour fuel f b).1 <> Thrown /\
     exists evs, log (onmessage behaviour fuel f b).2 = log b ++ evs /\
                 throw_is_last evs) /\
  (forall t payload (pre post : list HandlerId) h (b : Bus St) fuel,
     handlers b !! t = Some (Some <$> (pre ++ h :: post)) ->
     (forall g st, g ∈ pre ->
        out_ops (behaviour g payload st) = [] /\
        out_throws (behaviour g payload st) = false) ->
     (forall st, out_throws (behaviour h payload st) = true) ->
     length pre < fuel ->
     exists b' evs,
       onmessage behaviour fuel (pushed t payload) b = (Normal, b') /\
       log b' = log b ++ evs /\
       invocations evs = (fun g => (t, g, payload)) <$> (pre ++ [h])).
Proof.
  split; [apply onmessage_events|].
  intros t payload pre post h b fuel Hset Hpre Hh Hfuel.
  destruct (forEach_until_throw t payload pre h post [] b fuel Hset Hpre Hh Hfuel)
    as (b' & evs & Hrun & Hl & Hi).
  exists b', evs. split; [|auto].
  unfold onmessage, pushed. simpl. rewrite Hset.
  unfold get_prop_opt. simpl. simpl in Hrun. rewrite Hrun. reflexivity.
Qed.

End Dispatch.

(** *** The dispatch on small inputs *)

Lemma malformed_frame_is_dropped {St : Type} behaviour fuel (b : EventBus.Bus St) :
  EventBus.onmessage behaviour fuel EventBus.Malformed b = (EventBus.Normal, b).
Proof. reflexivity. Qed.

Lemma null_frame_is_dropped {St : Type} behaviour fuel (b : EventBus.Bus St) :
  EventBus.onmessage behaviour fuel (EventBus.Decoded JNull) b = (EventBus.Normal, b).
Proof. reflexivity. Qed.

Lemma unknown_type_is_ignored {St : Type} behaviour fuel t payload (b : EventBus.Bus St) :
  EventBus.handlers b !! t = None ->
  EventBus.onmessage behaviour fuel (Spec.pushed t payload) b = (EventBus.Normal, b).
Proof. intros H. unfold EventBus.onmessage, Spec.pushed. simpl. by rewrite H. Qed.

(** A handler subscribed while the frame is dispatched is visited by the
    same [forEach]; subscribing a handler twice registers it once. *)
Example handler_added_during_dispatch_runs :
  EventBus.log
    (EventBus.run Spec.one_adds_two 10
       [EventBus.CmdSubscribe "x" 1; EventBus.CmdSubscribe "x" 1;
        EventBus.CmdMessage (Spec.pushed "x" JNull)]
       (EventBus.empty_bus tt))
  = [EventBus.EvSubscribe "x" 1; EventBus.EvSubscribe "x" 1;
     EventBus.EvInvoke "x" 1 JNull; EventBus.EvSubscribe "x" 2;
     EventBus.EvInvoke "x" 2 JNull].
Proof. vm_compute. reflexivity. Qed.

(** Membership in an explicit list of events, refuted entry by entry. *)
Ltac refute_elem H :=
  repeat (apply elem_of_cons in H as [H|H]; [discriminate H|]);
  apply not_elem_of_nil in H; exact H.

(** Handlers 5 and 7, then 0 (which throws), then 9. *)
Lemma dispatch_stops_at_first_throw_witness :
  let b := EventBus.run Spec.first_throws 10
             [EventBus.CmdSubscribe "x" 5; EventBus.CmdSubscribe "x" 7;
              EventBus.CmdSubscribe "x" 0; EventBus.CmdSubscribe "x" 9]
             (EventBus.empty_bus tt) in
  EventBus.handlers b !! "x" = Some (Some <$> ([5; 7] ++ 0 :: [9])) /\
  exists b' evs,
    EventBus.onmessage Spec.first_throws 10 (Spec.pushed "x" (JNum 5)) b
      = (EventBus.Normal, b') /\
    EventBus.log b' = EventBus.log b ++ evs /\
    Spec.invocations evs = [("x", 5, JNum 5); ("x", 7, JNum 5); ("x", 0, JNum 5)].
Proof.
  intros b.
  assert (Hset : EventBus.handlers b !! "x" = Some (Some <$> ([5; 7] ++ 0 :: [9])))
    by (vm_compute; reflexivity).
  split; [exact Hset|].
  apply (proj2 (dispatch_stops_at_first_throw Spec.first_throws) "x" (JNum 5)
           [5; 7] [9] 0 b 10 Hset).
  - intros g st Hin. split; [reflexivity|].
    apply elem_of_cons in Hin as [->|Hin]; [reflexivity|].
    apply elem_of_cons in Hin as [->|Hin]; [reflexivity|].
    by apply not_elem_of_nil in Hin.
  - intros st. reflexivity.
  - simpl. lia.
Defined.

(** C2 fails as stated: handlers 0 and 1 are both registered for "x" and
    handler 0 throws; the frame is absorbed, and handler 1 was never called. *)
Lemma throwing_handler_starves_the_next :
  let b := EventBus.run Spec.first_throws 10
             [EventBus.CmdSubscribe "x" 0; EventBus.CmdSubscribe "x" 1]
             (EventBus.empty_bus tt) in
  let r := EventBus.onmessage Spec.first_throws 10 (Spec.pushed "x" (JNum 5)) b in
  Spec.registered "x" 0 b /\ Spec.registered "x" 1 b /\
  r.1 = EventBus.Normal /\
  EventBus.log r.2 = EventBus.log b ++
                     [EventBus.EvInvoke "x" 0 (JNum 5); EventBus.EvThrow "x" 0] /\
  forall payload, EventBus.EvInvoke "x" 1 payload ∉ EventBus.log r.2.
Proof.
  intros b r.
  assert (Hlog : EventBus.log r.2 =
                 [EventBus.EvSubscribe "x" 0; EventBus.EvSubscribe "x" 1;
                  EventBus.EvInvoke "x" 0 (JNum 5); EventBus.EvThrow "x" 0])
    by (vm_compute; reflexivity).
  split; [|split; [|split; [|split]]].
  - unfold Spec.registered. vm_compute. left.
  - unfold Spec.registered. vm_compute. right. left.
  - vm_compute. reflexivity.
  - vm_compute. reflexivity.
  - intros payload Hin. rewrite Hlog in Hin. refute_elem Hin.
Qed.

(** ** Object literals *)

Lemma obj_get_set_eq fields k v : obj_get (obj_set fields k v) k = Some v.
Proof.
  induction fields as [|[k' v'] rest IH]; simpl.
  - by rewrite String.eqb_refl.
  - destruct (String.eqb k' k) eqn:E; simpl; rewrite E; auto.
Qed.

Lemma obj_get_set_ne fields k v k' :
  k <> k' -> obj_get (obj_set fields k v) k' = obj_get fields k'.
Proof.
  intros Hne. induction fields as [|[k0 v0] rest IH]; simpl.
  - apply String.eqb_neq in Hne. by rewrite Hne.
  - destruct (String.eqb k0 k) eqn:E; simpl.
    + apply String.eqb_eq in E. subst k0.
      apply String.eqb_neq in Hne. by rewrite Hne.
    + destruct (String.eqb k0 k'); auto.
Qed.

Lemma obj_get_absent fields k : k ∉ fields.*1 -> obj_get fields k = None.
Proof.
  induction fields as [|[k' v'] rest IH]; simpl; intros Hnin; auto.
  apply not_elem_of_cons in Hnin as [Hne Hnin].
  apply not_eq_sym, String.eqb_neq in Hne. rewrite Hne. auto.
Qed.

Lemma obj_set_fresh fields k v :
  k ∉ fields.*1 -> obj_set fields k v = fields ++ [(k, v)].
Proof.
  induction fields as [|[k' v'] rest IH]; simpl; intros Hnin; auto.
  apply not_elem_of_cons in Hnin as [Hne Hnin].
  apply not_eq_sym, String.eqb_neq in Hne. rewrite Hne, IH; auto.
Qed.

(** Spreading an object whose keys are all new appends its properties. *)
Lemma spread_fresh (src o : list (string * JSValue)) :
  NoDup src.*1 -> (forall k, k ∈ src.*1 -> k ∉ o.*1) ->
  fold_left (fun o kv => obj_set o kv.1 kv.2) src o = o ++ src.
Proof.
  revert o. induction src as [|[k v] src IH]; intros o Hnd Hfresh; simpl.
  - by rewrite app_nil_r.
  - apply NoDup_cons in Hnd as [Hk Hnd].
    rewrite obj_set_fresh by (apply Hfresh; left).
    rewrite IH; [by rewrite <- app_assoc | exact Hnd |].
    intros k' Hin. rewrite fmap_app. intros [Ho | Hs]%elem_of_app.
    + apply (Hfresh k'); [by right | exact Ho].
    + apply list_elem_of_singleton in Hs. simpl in Hs. subst k'. auto.
Qed.

(** After a spread, a key of the source holds the source's value and any
    other key keeps what the target had. *)
Lemma spread_lookup (src o : list (string * JSValue)) k :
  NoDup src.*1 ->
  obj_get (fold_left (fun o kv => obj_set o kv.1 kv.2) src o) k =
  match obj_get src k with
  | Some v => Some v
  | None => obj_get o k
  end.
Proof.
  revert o. induction src as [|[k0 v0] src IH]; intros o Hnd; simpl; auto.
  apply NoDup_cons in Hnd as [Hk Hnd]. rewrite IH by exact Hnd.
  destruct (String.eqb k0 k) eqn:E.
  - apply String.eqb_eq in E. subst k0.
    rewrite (obj_get_absent src k Hk). apply obj_get_set_eq.
  - apply String.eqb_neq in E.
    destruct (obj_get src k); auto. by apply obj_get_set_ne.
Qed.

(** ** Connection life cycle *)

Section ConnectionFacts.

Import EventBus Connection Spec.

Context {St : Type}.
Variable behaviour : HandlerId -> JSValue -> St -> Outcome St.
Variable JSON_stringify : JSValue -> string.

Lemma timers_ws_close i (p : Provider St) : timers (ws_close i p) = timers p.
Proof. unfold ws_close. by destruct (sockets p !! i) as [[]|]. Qed.

Lemma timer_due_removed id (p : Provider St) : timer_due id (remove_timer id p) = false.
Proof.
  unfold timer_due, remove_timer; simpl.
  induction (timers p) as [|[n due] ts IH]; simpl; auto.
  rewrite filter_cons. case_decide as Hn; simpl in *; auto.
  destruct (Nat.eqb_spec n id); [congruence | simpl; auto].
Qed.

(** The part of teardown that works: the reconnection that was pending when
    the provider unmounts is cancelled, its timer can no longer fire. *)
Lemma unmount_cancels_pending_timer fuel id (p : Provider St) :
  reconnectTimeoutRef p = Some id ->
  step behaviour JSON_stringify fuel (TimerFire id) (unmount p) = None.
Proof.
  intros Href. unfold step.
  assert (H : timer_due id (unmount p) = false); [|by rewrite H].
  pose proof (timer_due_removed id p) as Hrm.
  unfold unmount. rewrite Href. cbn [clearTimeout].
  unfold timer_due in *.
  destruct (wsRef (remove_timer id p)) as [i|]; [|exact Hrm].
  rewrite timers_ws_close.
  replace (clock (ws_close i (remove_timer id p))) with (clock (remove_timer id p));
    [exact Hrm|].
  unfold ws_close. by destruct (sockets (remove_timer id p) !! i) as [[]|].
Qed.

Lemma closed_socket_lookup i r (p : Provider St) :
  Forall (fun r => r = CLOSED) (sockets p) -> sockets p !! i = Some r -> r = CLOSED.
Proof. intros Hall Hi. by apply (Forall_lookup_1 _ _ _ _ Hall Hi). Qed.

Lemma quiescent_step fuel x (p p' : Provider St) :
  quiescent p -> x <> Mount ->
  step behaviour JSON_stringify fuel x p = Some p' ->
  quiescent p' /\ connects p' = connects p.
Proof.
  intros [Ht Hs] Hx Hstep. destruct x; cbn [step] in Hstep.
  - congruence.
  - injection Hstep as <-. unfold unmount.
    assert (Hq : clearTimeout (reconnectTimeoutRef p) p = p).
    { destruct p as [ss w c [id|] ts n k o cs b]; cbn in *; [|reflexivity].
      subst ts. reflexivity. }
    rewrite Hq. destruct (wsRef p) as [i|]; [|by repeat split].
    unfold ws_close. destruct (sockets p !! i) as [r|] eqn:E; [|by repeat split].
    rewrite (closed_socket_lookup i r p Hs E). by repeat split.
  - destruct (sockets p !! i) as [r|] eqn:E; [|discriminate].
    rewrite (closed_socket_lookup i r p Hs E) in Hstep. discriminate.
  - destruct (sockets p !! i) as [r|] eqn:E; [|discriminate].
    rewrite (closed_socket_lookup i r p Hs E) in Hstep. discriminate.
  - destruct (sockets p !! i) as [r|] eqn:E; [|discriminate].
    rewrite (closed_socket_lookup i r p Hs E) in Hstep. discriminate.
  - destruct (sockets p !! i) as [r|] eqn:E; [|discriminate].
    rewrite (closed_socket_lookup i r p Hs E) in Hstep. discriminate.
  - unfold timer_due in Hstep. rewrite Ht in Hstep. discriminate.
  - destruct (0 <=? ms)%Z; [|discriminate]. injection Hstep as <-. by repeat split.
  - injection Hstep as <-. unfold send.
    destruct (wsRef p) as [i|]; [|by repeat split].
    destruct (sockets p !! i) as [r|] eqn:E; [|by repeat split].
    rewrite (closed_socket_lookup i r p Hs E). by repeat split.
  - injection Hstep as <-. by repeat split.
  - injection Hstep as <-. by repeat split.
Qed.

(** Once quiescent, the provider never connects again, whatever the
    browser and the components do, short of mounting it anew. *)
Lemma quiescent_steps fuel xs (p p' : Provider St) :
  quiescent p -> Mount ∉ xs ->
  steps behaviour JSON_stringify fuel xs p = Some p' ->
  quiescent p' /\ connects p' = connects p.
Proof.
  revert p. induction xs as [|x xs IH]; intros p Hq Hxs Hsteps; cbn [steps] in Hsteps.
  - injection Hsteps as <-. auto.
  - apply not_elem_of_cons in Hxs as [Hx Hxs].
    destruct (step behaviour JSON_stringify fuel x p) as [p1|] eqn:E; [|discriminate].
    destruct (quiescent_step fuel x p p1 Hq (not_eq_sym Hx) E) as [Hq1 Hc1].
    destruct (IH p1 Hq1 Hxs Hsteps) as [Hq' Hc']. split; [exact Hq'|congruence].
Qed.

(** The case in which teardown does what it is meant to: every socket has
    already closed and the only pending timer is the one in
    [reconnectTimeoutRef]; the cleanup cancels it and nothing can revive the
    connection. *)
Lemma unmount_after_close_is_final id (p : Provider St) :
  reconnectTimeoutRef p = Some id ->
  Forall (fun t => t.1 = id) (timers p) ->
  Forall (fun r => r = CLOSED) (sockets p) ->
  quiescent (unmount p).
Proof.
  intros Href Hts Hs. unfold unmount. rewrite Href. cbn [clearTimeout].
  assert (Hq : quiescent (remove_timer id p)).
  { split; [|exact Hs]. cbn [timers remove_timer].
    induction Hts as [|t ts Ht _ IH]; [reflexivity|].
    rewrite filter_cons. case_decide; [congruence | exact IH]. }
  destruct (wsRef (remove_timer id p)) as [i|]; [|exact Hq].
  unfold ws_close. destruct (sockets (remove_timer id p) !! i) as [r|] eqn:E; [|exact Hq].
  destruct Hq as [Hq1 Hq2]. rewrite (closed_socket_lookup i r _ Hq2 E). by split.
Qed.

(** Whatever the provider has been through: if the socket in [wsRef] is
    open or connecting when the provider unmounts, the close event that the
    cleanup itself provokes leads, [RECONNECT_DELAY] later, to a [connect]. *)
Lemma unmount_then_close_reconnects fuel i (p : Provider St) :
  wsRef p = Some i ->
  sockets p !! i = Some OPEN \/ sockets p !! i = Some CONNECTING ->
  exists p',
    steps behaviour JSON_stringify fuel
      [Unmount; SocketClose i; Advance RECONNECT_DELAY; TimerFire (timer_seq p)] p
      = Some p' /\
    connects p' = connects p ++ [(clock p + RECONNECT_DELAY)%Z].
Proof.
  intros Href Hlive.
  assert (Hlt : i < length (sockets p)).
  { destruct Hlive as [H|H]; apply lookup_lt_Some in H; exact H. }
  assert (Hun : unmount p =
                set_ready i CLOSING (clearTimeout (reconnectTimeoutRef p) p)).
  { unfold unmount.
    assert (Hw : wsRef (clearTimeout (reconnectTimeoutRef p) p) = Some i)
      by (destruct (reconnectTimeoutRef p); exact Href).
    assert (Hs : sockets (clearTimeout (reconnectTimeoutRef p) p) = sockets p)
      by (destruct (reconnectTimeoutRef p); reflexivity).
    rewrite Hw. unfold ws_close. rewrite Hs.
    destruct Hlive as [-> | ->]; reflexivity. }
  set (q := clearTimeout (reconnectTimeoutRef p) p) in *.
  assert (Hq : sockets q = sockets p /\ timer_seq q = timer_seq p /\
               clock q = clock p /\ connects q = connects p).
  { subst q. destruct (reconnectTimeoutRef p); repeat split. }
  destruct Hq as (Hqs & Hqt & Hqc & Hqn).
  cbn [steps step]. rewrite Hun.
  replace (sockets (set_ready i CLOSING q) !! i) with (Some CLOSING)
    by (symmetry; cbn [sockets set_ready]; rewrite Hqs;
        apply list_lookup_insert_eq, Hlt).
  cbn [is_closed].
  assert (Hpos : (0 <=? RECONNECT_DELAY)%Z = true) by reflexivity.
  rewrite Hpos.
  match goal with
  | |- context [timer_due ?id ?s] =>
      assert (Hdue : timer_due id s = true)
  end.
  { unfold timer_due. cbn. rewrite existsb_app. cbn.
    rewrite Hqt, Nat.eqb_refl, Hqc. cbn.
    replace (clock p + RECONNECT_DELAY <=? clock p + RECONNECT_DELAY)%Z
      with true by (symmetry; apply Z.leb_refl).
    apply orb_true_r. }
  rewrite Hdue. eexists. split; [reflexivity|].
  cbn. rewrite Hqn, Hqc. reflexivity.
Qed.

(** C1, what the code does. The provider mounts at time 0, its socket
    opens, and at time 1000 the provider unmounts: the cleanup leaves no
    timer pending and puts the socket in the closing state. The close event
    of that very socket then runs [onclose], which is still attached and
    knows nothing of the teardown: it schedules a reconnection, and 3000 ms
    later [connect] is called and a second socket is constructed. *)
Theorem teardown_is_followed_by_reconnect :
  forall (st : St) (fuel : nat),
  exists torn_down final,
    steps behaviour JSON_stringify fuel
      [Mount; SocketOpen 0; Advance 1000; Unmount] (init st) = Some torn_down /\
    clock torn_down = 1000%Z /\
    connects torn_down = [0%Z] /\
    timers torn_down = [] /\
    sockets torn_down = [CLOSING] /\
    steps behaviour JSON_stringify fuel
      [SocketClose 0; Advance 3000; TimerFire 0] torn_down = Some final /\
    connects final = [0%Z; 4000%Z] /\
    sockets final = [CLOSED; CONNECTING] /\
    wsRef final = Some 1.
Proof.
  intros st fuel. eexists _, _.
  split; [reflexivity|]. repeat split.
Qed.

Lemma envelope_no_payload type : envelope type JUndefined = [("type", JStr type)].
Proof. reflexivity. Qed.

Example envelope_of_array :
  envelope "a" (JArr [JNum 7; JNull]) = [("type", JStr "a"); ("0", JNum 7); ("1", JNull)].
Proof. reflexivity. Qed.

Example envelope_of_number : envelope "a" (JNum 7) = [("type", JStr "a")].
Proof. reflexivity. Qed.

Lemma envelope_flat type fields :
  NoDup fields.*1 -> "type" ∉ fields.*1 ->
  envelope type (JObj fields) = ("type", JStr type) :: fields.
Proof.
  intros Hnd Hty. unfold envelope. cbn [truthy spread_source].
  rewrite spread_fresh; [reflexivity | exact Hnd |].
  intros k Hin Hk. apply list_elem_of_singleton in Hk. simpl in Hk. by subst k.
Qed.

Lemma envelope_lookup type fields k :
  NoDup fields.*1 ->
  obj_get (envelope type (JObj fields)) k =
  match obj_get fields k with
  | Some v => Some v
  | None => obj_get [("type", JStr type)] k
  end.
Proof. intros Hnd. unfold envelope. cbn [truthy spread_source]. by apply spread_lookup. Qed.

Lemma send_open type data i (p : Provider St) :
  wsRef p = Some i -> sockets p !! i = Some OPEN ->
  send JSON_stringify type data p =
  {| sockets := sockets p; wsRef := wsRef p; connected := connected p;
     reconnectTimeoutRef := reconnectTimeoutRef p;
     timers := timers p; timer_seq := timer_seq p; clock := clock p;
     outbox := outbox p ++ [(i, JSON_stringify (JObj (envelope type data)))];
     connects := connects p; bus := bus p |}.
Proof. intros Href Hs. unfold send. by rewrite Href, Hs. Qed.

(** C8. [send] looks at the socket in [wsRef]. When it is open, one frame
    is handed to it, the serialisation of [{type, ...payload}], and nothing
    else changes; the payload's properties sit beside [type] at the top
    level (no [data] wrapper), and a call without payload sends [{type}].
    When it is not open (no socket yet, connecting, closing or closed) the
    call returns the state it was given: nothing sent, nothing queued, no
    error. *)
Theorem send_only_when_open :
  forall (type : string) (data : JSValue) (p : Provider St),
    (transport_open p = true ->
     exists i, wsRef p = Some i /\
       send JSON_stringify type data p =
       {| sockets := sockets p; wsRef := wsRef p; connected := connected p;
          reconnectTimeoutRef := reconnectTimeoutRef p;
          timers := timers p; timer_seq := timer_seq p; clock := clock p;
          outbox := outbox p ++ [(i, JSON_stringify (JObj (envelope type data)))];
          connects := connects p; bus := bus p |}) /\
    (transport_open p = false -> send JSON_stringify type data p = p) /\
    envelope type JUndefined = [("type", JStr type)] /\
    (forall fields, NoDup fields.*1 -> "type" ∉ fields.*1 ->
       envelope type (JObj fields) = ("type", JStr type) :: fields).
Proof.
  intros type data p. split; [|split; [|split]].
  - unfold transport_open. intros Hopen.
    destruct (wsRef p) as [i|] eqn:Href; [|discriminate].
    destruct (sockets p !! i) as [[]|] eqn:Hs; try discriminate.
    exists i. split; [reflexivity|]. rewrite <- Href. by apply send_open.
  - unfold transport_open, send. intros Hclosed.
    destruct (wsRef p) as [i|]; [|reflexivity].
    destruct (sockets p !! i) as [[]|]; try reflexivity. discriminate.
  - apply envelope_no_payload.
  - apply envelope_flat.
Qed.

(** C10. The spread comes after [type] in the literal: a payload object
    that has a [type] property of its own puts its value in the envelope,
    and that envelope is what an open socket is given. *)
Theorem payload_type_overrides_argument :
  forall (type : string) (fields : list (string * JSValue)) (v : JSValue),
    NoDup fields.*1 ->
    obj_get fields "type" = Some v ->
    obj_get (envelope type (JObj fields)) "type" = Some v /\
    (forall i (p : Provider St),
       wsRef p = Some i -> sockets p !! i = Some OPEN ->
       outbox (send JSON_stringify type (JObj fields) p) =
       outbox p ++ [(i, JSON_stringify (JObj (envelope type (JObj fields))))]) /\
    envelope "a" (JObj [("type", JStr "b")]) = [("type", JStr "b")].
Proof.
  intros type fields v Hnd Hty. split; [|split].
  - rewrite envelope_lookup by exact Hnd. by rewrite Hty.
  - intros i p Href Hs. by rewrite (send_open type (JObj fields) i p Href Hs).
  - reflexivity.
Qed.

End ConnectionFacts.

Lemma send_only_when_open_witness :
  let payload := [("coin", JStr "BTC")] in
  Spec.transport_open Spec.opened = true /\
  (exists i, Connection.wsRef Spec.opened = Some i /\
     Connection.outbox
       (Connection.send Spec.no_text "subscribe" (JObj payload) Spec.opened) =
     [(i, Spec.no_text (JObj [("type", JStr "subscribe"); ("coin", JStr "BTC")]))]) /\
  Spec.transport_open Spec.unmounted = false /\
  Connection.send Spec.no_text "subscribe" (JObj payload) Spec.unmounted
    = Spec.unmounted /\
  NoDup payload.*1 /\ ("type" ∉ payload.*1) /\
  Connection.envelope "subscribe" (JObj payload)
    = [("type", JStr "subscribe"); ("coin", JStr "BTC")].
Proof.
  intros payload.
  assert (Hopen : Spec.transport_open Spec.opened = true) by reflexivity.
  assert (Hclosed : Spec.transport_open Spec.unmounted = false) by reflexivity.
  assert (Hnd : NoDup payload.*1) by (apply NoDup_singleton).
  assert (Hty : "type" ∉ payload.*1)
    by (intros Hin; apply list_elem_of_singleton in Hin; discriminate).
  destruct (send_only_when_open Spec.no_text "subscribe" (JObj payload) Spec.opened)
    as (Hsend & _ & _ & _).
  destruct (send_only_when_open Spec.no_text "subscribe" (JObj payload) Spec.unmounted)
    as (_ & Hdrop & _ & Hflat).
  split; [exact Hopen|]. split.
  { destruct (Hsend Hopen) as (i & Href & Heq). exists i. split; [exact Href|].
    rewrite Heq. reflexivity. }
  split; [exact Hclosed|]. split; [exact (Hdrop Hclosed)|].
  split; [exact Hnd|]. split; [exact Hty|].
  exact (Hflat payload Hnd Hty).
Defined.

Lemma payload_type_overrides_argument_witness :
  let fields := [("type", JStr "b"); ("coin", JStr "BTC")] in
  NoDup fields.*1 /\
  obj_get fields "type" = Some (JStr "b") /\
  obj_get (Connection.envelope "a" (JObj fields)) "type" = Some (JStr "b").
Proof.
  intros fields.
  assert (Hnd : NoDup fields.*1).
  { apply NoDup_cons. split; [|apply NoDup_singleton].
    intros Hin. apply list_elem_of_singleton in Hin. discriminate. }
  assert (Hty : obj_get fields "type" = Some (JStr "b")) by reflexivity.
  split; [exact Hnd|]. split; [exact Hty|].
  exact (proj1 (payload_type_overrides_argument (St := unit) Spec.no_text
                  "a" fields (JStr "b") Hnd Hty)).
Defined.

(** ** Caches *)

Section CacheFacts.

Import EventBus ResourceCache Spec.

Lemma receive_initial_state fuel payload (st : Caches) :
  onmessage behaviour (S (S fuel)) (pushed "initial_state" payload) (hooks_mounted st)
  = (Normal,
     {| handlers := handlers (hooks_mounted st);
        app := on_initial_state payload st;
        log := log (hooks_mounted st)
               ++ [EvInvoke "initial_state" H_INITIAL_STATE payload] |}).
Proof. reflexivity. Qed.

Lemma receive_initial_state_at fuel payload (st0 st : Caches) evs :
  onmessage behaviour (S (S fuel)) (pushed "initial_state" payload)
    {| handlers := handlers (hooks_mounted st0); app := st; log := evs |}
  = (Normal,
     {| handlers := handlers (hooks_mounted st0);
        app := on_initial_state payload st;
        log := evs ++ [EvInvoke "initial_state" H_INITIAL_STATE payload] |}).
Proof. reflexivity. Qed.

Lemma receive_dashboard_update_at fuel d (st0 st : Caches) evs :
  onmessage behaviour (S (S fuel)) (pushed "dashboard_update" d)
    {| handlers := handlers (hooks_mounted st0); app := st; log := evs |}
  = (Normal,
     {| handlers := handlers (hooks_mounted st0);
        app := on_dashboard_update d st;
        log := evs ++ [EvInvoke "dashboard_update" H_DASHBOARD_UPDATE d] |}).
Proof. reflexivity. Qed.

Lemma receive_dashboard_update fuel d (st : Caches) :
  onmessage behaviour (S (S fuel)) (pushed "dashboard_update" d) (hooks_mounted st)
  = (Normal,
     {| handlers := handlers (hooks_mounted st);
        app := on_dashboard_update d st;
        log := log (hooks_mounted st)
               ++ [EvInvoke "dashboard_update" H_DASHBOARD_UPDATE d] |}).
Proof. reflexivity. Qed.

(** C3 fails as stated: the socket of this provider has opened and its
    [connected] flag is set, and the coin-list cache is polling. *)
Lemma coin_list_polls_while_connected :
  transport_open opened = true /\
  useWebSocket_connected opened = true /\
  polling_active (refreshInterval CoinListCache (useWebSocket_connected opened))
    = true /\
  ~ (forall r connected,
       polling_active (refreshInterval r connected) = negb connected).
Proof.
  split; [reflexivity|]. split; [reflexivity|]. split; [reflexivity|].
  intros H. specialize (H CoinListCache true). discriminate H.
Qed.

(** C3, as the code has it. [useDashboard] polls every 30000 ms exactly
    while the provider's [connected] flag is false and not at all while it
    is true; [useCoins] polls every 60000 ms whatever the flag says. *)
Theorem polling_depends_on_resource :
  forall connected : bool,
    polling_active (refreshInterval DashboardCache connected) = negb connected /\
    refreshInterval DashboardCache false = 30000%Z /\
    refreshInterval DashboardCache true = 0%Z /\
    polling_active (refreshInterval CoinListCache connected) = true /\
    refreshInterval CoinListCache connected = 60000%Z /\
    (forall (St : Type) (p : Connection.Provider St),
       polling_active (refreshInterval DashboardCache (useWebSocket_connected p))
       = negb (Connection.connected p)).
Proof.
  intros connected. split; [|split; [|split; [|split; [|split]]]].
  - by destruct connected.
  - reflexivity.
  - reflexivity.
  - reflexivity.
  - reflexivity.
  - intros St p. unfold useWebSocket_connected. by destruct (Connection.connected p).
Qed.

(** C5. With the hooks mounted: an [initial_state] frame whose payload
    has a dashboard, an object as the event and [DashboardData] have it,
    puts that object in the dashboard cache, starts no pull and leaves the
    coin cache alone (and so does every other value the guard
    [if (payload?.dashboard)] lets through); a [dashboard_update] frame
    replaces the cached value by its payload, whatever was there; and
    [initial_state] with [{equity: 1000}] followed by [dashboard_update]
    with [{equity: 900}] leaves [{equity: 900}]. *)
Theorem pushed_dashboard_reaches_cache :
  forall (st : Caches) (fuel : nat),
    2 <= fuel ->
    (forall fields snapshot,
       obj_get fields "dashboard" = Some (JObj snapshot) ->
       exists b',
         onmessage behaviour fuel (pushed "initial_state" (JObj fields))
           (hooks_mounted st) = (Normal, b') /\
         dashboard (app b')
           = {| data := JObj snapshot; pulls := pulls (dashboard st) |} /\
         coins (app b') = coins st) /\
    (forall payload,
       truthy (get_prop_opt payload "dashboard") = true ->
       exists b',
         onmessage behaviour fuel (pushed "initial_state" payload) (hooks_mounted st)
           = (Normal, b') /\
         data (dashboard (app b')) = get_prop_opt payload "dashboard" /\
         pulls (dashboard (app b')) = pulls (dashboard st) /\
         coins (app b') = coins st) /\
    (forall d,
       exists b',
         onmessage behaviour fuel (pushed "dashboard_update" d) (hooks_mounted st)
           = (Normal, b') /\
         dashboard (app b') = {| data := d; pulls := pulls (dashboard st) |} /\
         coins (app b') = coins st) /\
    (let first :=
       receive fuel
         (pushed "initial_state"
            (JObj [("dashboard", JObj [("equity", JNum 1000)])]))
         (hooks_mounted st) in
     let second :=
       receive fuel (pushed "dashboard_update" (JObj [("equity", JNum 900)])) first in
     dashboard (app first)
       = {| data := JObj [("equity", JNum 1000)]; pulls := pulls (dashboard st) |} /\
     dashboard (app second)
       = {| data := JObj [("equity", JNum 900)]; pulls := pulls (dashboard st) |}).
Proof.
  intros st fuel Hfuel.
  destruct fuel as [|[|fuel]]; [lia | lia |].
  assert (Htruthy : forall payload,
             truthy (get_prop_opt payload "dashboard") = true ->
             exists b',
               onmessage behaviour (S (S fuel)) (pushed "initial_state" payload)
                 (hooks_mounted st) = (Normal, b') /\
               data (dashboard (app b')) = get_prop_opt payload "dashboard" /\
               pulls (dashboard (app b')) = pulls (dashboard st) /\
               coins (app b') = coins st).
  { intros payload Htruthy. eexists. split; [apply receive_initial_state|].
    cbn [app]. unfold on_initial_state. rewrite Htruthy. repeat split. }
  split; [|split; [exact Htruthy|split]].
  - intros fields snapshot Hget.
    assert (Hd : get_prop_opt (JObj fields) "dashboard" = JObj snapshot).
    { unfold get_prop_opt, get_prop. by rewrite Hget. }
    destruct (Htruthy (JObj fields)) as (b' & Hrun & Hdata & Hpulls & Hcoins).
    { by rewrite Hd. }
    exists b'. split; [exact Hrun|]. split; [|exact Hcoins].
    destruct (dashboard (app b')) as [d n]. cbn in *. by rewrite Hdata, Hd, Hpulls.
  - intros d. eexists. split; [apply receive_dashboard_update|]. repeat split.
  - cbv zeta. unfold receive. rewrite receive_initial_state. cbn [snd].
    split; [reflexivity|].
    rewrite receive_dashboard_update_at. reflexivity.
Qed.

End CacheFacts.

Lemma pushed_dashboard_reaches_cache_witness :
  let st := {| ResourceCache.dashboard :=
                 {| ResourceCache.data := JUndefined; ResourceCache.pulls := 1 |};
               ResourceCache.coins :=
                 {| ResourceCache.data := JUndefined; ResourceCache.pulls := 1 |} |} in
  let snapshot := [("equity", JNum 1000)] in
  let fields := [("dashboard", JObj snapshot); ("coins", JArr []); ("blacklist", JArr [])] in
  2 <= 2 /\
  obj_get fields "dashboard" = Some (JObj snapshot) /\
  exists b',
    EventBus.onmessage ResourceCache.behaviour 2
      (Spec.pushed "initial_state" (JObj fields)) (ResourceCache.hooks_mounted st)
      = (EventBus.Normal, b') /\
    ResourceCache.dashboard (EventBus.app b')
      = {| ResourceCache.data := JObj snapshot; ResourceCache.pulls := 1 |}.
Proof.
  intros st snapshot fields.
  assert (Hfuel : 2 <= 2) by lia.
  assert (Hget : obj_get fields "dashboard" = Some (JObj snapshot)) by reflexivity.
  split; [exact Hfuel|]. split; [exact Hget|].
  destruct (proj1 (pushed_dashboard_reaches_cache st 2 Hfuel) fields snapshot Hget)
    as (b' & Hrun & Hdash & _).
  exists b'. split; [exact Hrun | exact Hdash].
Defined.

(** ** Coin table *)

Section SortEngine.

Import ViewTable Spec.

Context {A : Type}.
Variable cmp : A -> A -> option Q.

Lemma insert_rearranges x l : insert_from_right cmp x l ≡ₚ x :: l.
Proof.
  induction l as [|e l IH]; simpl; auto.
  destruct (negative (cmp x e)); auto.
  rewrite IH. apply Permutation_swap.
Qed.

Lemma sort_loop_rearranges l acc :
  fold_left (fun prefix_rev x => insert_from_right cmp x prefix_rev) l acc
  ≡ₚ l ++ acc.
Proof.
  revert acc. induction l as [|x l IH]; intros acc; simpl; auto.
  rewrite IH, insert_rearranges. symmetry. apply Permutation_middle.
Qed.

Lemma array_sort_rearranges l : array_sort cmp l ≡ₚ l.
Proof.
  unfold array_sort. rewrite <- Permutation_rev.
  rewrite sort_loop_rearranges. by rewrite app_nil_r.
Qed.

Lemma insert_Forall (P : A -> Prop) x l :
  P x -> Forall P l -> Forall P (insert_from_right cmp x l).
Proof.
  intros Hx. induction 1 as [|e l He Hl IH]; simpl.
  - by constructor.
  - destruct (negative (cmp x e)); repeat constructor; auto.
Qed.

Lemma merge_eqn l r :
  merge cmp l r =
  match l, r with
  | [], _ => r
  | _, [] => l
  | a :: l', b :: r' =>
      if negative (cmp b a) then b :: merge cmp l r' else a :: merge cmp l' r
  end.
Proof. destruct l, r; reflexivity. Qed.

Lemma merge_rearranges l r : merge cmp l r ≡ₚ l ++ r.
Proof.
  revert r. induction l as [|a l IHl]; intros r.
  - rewrite merge_eqn. by destruct r.
  - induction r as [|b r IHr]; rewrite merge_eqn.
    + by rewrite app_nil_r.
    + destruct (negative (cmp b a)).
      * rewrite IHr. apply (Permutation_middle (a :: l) r b).
      * by rewrite IHl.
Qed.

Lemma merge_keeps (P : A -> Prop) l r :
  Forall P l -> Forall P r -> Forall P (merge cmp l r).
Proof.
  intros Hl Hr. rewrite merge_rearranges. by apply Forall_app.
Qed.

Lemma merge_sort_upto_rearranges depth l : merge_sort_upto cmp depth l ≡ₚ l.
Proof.
  revert l. induction depth as [|depth IH]; intros l; simpl; auto.
  destruct l as [|x [|y l]]; auto.
  rewrite merge_rearranges, !IH. by rewrite take_drop.
Qed.

Lemma merge_sort_rearranges l : merge_sort cmp l ≡ₚ l.
Proof. apply merge_sort_upto_rearranges. Qed.

(** Elements the comparator never calls smaller than another keep the order
    they had. *)
Section Late.

Variable late : A -> bool.
Hypothesis late_never_negative : forall x e, late x = true -> negative (cmp x e) = false.

Lemma insert_keeps_late x l :
  List.filter late (insert_from_right cmp x l) = List.filter late (x :: l).
Proof.
  induction l as [|e l IH]; [reflexivity|]. cbn [insert_from_right].
  destruct (negative (cmp x e)) eqn:E; [|reflexivity].
  assert (Hx : late x = false).
  { destruct (late x) eqn:Hx; [|reflexivity].
    by rewrite (late_never_negative x e Hx) in E. }
  cbn [List.filter] in *. rewrite Hx in *. by rewrite IH.
Qed.

Lemma sort_loop_keeps_late l acc :
  List.filter late
    (fold_left (fun prefix_rev x => insert_from_right cmp x prefix_rev) l acc)
  = List.filter late (rev l ++ acc).
Proof.
  revert acc. induction l as [|x l IH]; intros acc; [reflexivity|].
  cbn [fold_left rev]. rewrite IH, !List.filter_app, insert_keeps_late.
  rewrite <- !List.filter_app, <- app_assoc. reflexivity.
Qed.

Lemma array_sort_keeps_late l :
  List.filter late (array_sort cmp l) = List.filter late l.
Proof.
  unfold array_sort.
  rewrite List.filter_rev, sort_loop_keeps_late, app_nil_r, List.filter_rev.
  apply rev_involutive.
Qed.

End Late.

(** The arrangement is in order for every order the test reflects. *)
Section Ordered.

Variable R : A -> A -> Prop.

Hypothesis R_trans : forall a b c, R a b -> R b c -> R a c.
Hypothesis negative_sound : forall a b, negative (cmp a b) = true -> R a b.
Hypothesis negative_complete : forall a b, negative (cmp a b) = false -> R b a.

Lemma insert_ordered x l :
  StronglySorted (fun a b => R b a) l ->
  StronglySorted (fun a b => R b a) (insert_from_right cmp x l).
Proof.
  induction 1 as [|e l Hl IH He]; simpl.
  - repeat constructor.
  - destruct (negative (cmp x e)) eqn:E.
    + constructor; [exact IH|]. apply insert_Forall; [|exact He].
      by apply negative_sound.
    + constructor; [by constructor|]. constructor; [by apply negative_complete|].
      eapply Forall_impl; [exact He|]. cbn. intros y Hy.
      eapply R_trans; [exact Hy|]. by apply negative_complete.
Qed.

Lemma sort_loop_ordered l acc :
  StronglySorted (fun a b => R b a) acc ->
  StronglySorted (fun a b => R b a)
    (fold_left (fun prefix_rev x => insert_from_right cmp x prefix_rev) l acc).
Proof.
  revert acc. induction l as [|x l IH]; intros acc Hacc; simpl; [exact Hacc|].
  apply IH. by apply insert_ordered.
Qed.

Lemma ordered_snoc l x :
  StronglySorted R l -> Forall (fun y => R y x) l -> StronglySorted R (l ++ [x]).
Proof.
  induction 1 as [|a l Hl IH Ha]; intros Hx; simpl.
  - repeat constructor.
  - apply Forall_cons in Hx as [Hax Hx]. constructor; [by apply IH|].
    apply Forall_app. split; [exact Ha|]. by repeat constructor.
Qed.

Lemma ordered_rev l :
  StronglySorted (fun a b => R b a) l -> StronglySorted R (rev l).
Proof.
  induction 1 as [|a l Hl IH Ha]; simpl; [constructor|].
  apply ordered_snoc; [exact IH|]. by apply Forall_rev.
Qed.

Lemma array_sort_ordered l : StronglySorted R (array_sort cmp l).
Proof. unfold array_sort. apply ordered_rev, sort_loop_ordered. constructor. Qed.

Lemma merge_ordered l r :
  StronglySorted R l -> StronglySorted R r -> StronglySorted R (merge cmp l r).
Proof.
  intros Hl. revert r. induction Hl as [|a l Hl IHl Ha]; intros r Hr.
  - rewrite merge_eqn. by destruct r.
  - induction Hr as [|b r Hr IHr Hb]; rewrite merge_eqn.
    + by constructor.
    + destruct (negative (cmp b a)) eqn:E.
      * constructor; [exact IHr|]. apply merge_keeps; [|exact Hb].
        constructor; [by apply negative_sound|].
        eapply Forall_impl; [exact Ha|]. cbn. intros y Hy.
        eapply R_trans; [|exact Hy]. by apply negative_sound.
      * constructor; [apply IHl; by constructor|]. apply merge_keeps; [exact Ha|].
        constructor; [by apply negative_complete|].
        eapply Forall_impl; [exact Hb|]. cbn. intros y Hy.
        eapply R_trans; [|exact Hy]. by apply negative_complete.
Qed.

Lemma merge_sort_upto_ordered depth l :
  length l <= depth -> StronglySorted R (merge_sort_upto cmp depth l).
Proof.
  revert l. induction depth as [|depth IH]; intros l Hlen.
  - destruct l; [constructor | simpl in Hlen; lia].
  - cbn [merge_sort_upto]. destruct l as [|x [|y l]].
    + constructor.
    + repeat constructor.
    + set (rows := x :: y :: l) in *.
      assert (Hhalf : 0 < Nat.div2 (length rows) < length rows).
      { split.
        - subst rows. simpl. apply Nat.lt_0_succ.
        - apply Nat.lt_div2. subst rows. simpl. lia. }
      apply merge_ordered; apply IH.
      * rewrite length_take. lia.
      * rewrite length_drop. lia.
Qed.

Lemma merge_sort_ordered l : StronglySorted R (merge_sort cmp l).
Proof. apply merge_sort_upto_ordered. reflexivity. Qed.

End Ordered.

(** In a list ordered so that nothing follows a missing value but missing
    values, the values come first. *)
Lemma ordered_nulls_last (nullish : A -> bool) l :
  StronglySorted (fun a b => nullish a = true -> nullish b = true) l ->
  nulls_last nullish l.
Proof.
  induction 1 as [|r l Hl IH Hr].
  - exists [], []. repeat split; constructor.
  - destruct (nullish r) eqn:E.
    + exists [], (r :: l). split; [reflexivity|]. split; [constructor|].
      constructor; [exact E|]. eapply Forall_impl; [exact Hr|]. cbn. auto.
    + destruct IH as (present & missing & -> & Hp & Hm).
      exists (r :: present), missing. split; [reflexivity|].
      split; [by constructor | exact Hm].
Qed.

End SortEngine.

Section SortFacts.

Import ViewTable Spec.

Variable localeCompare : string -> string -> Q.
Variable StringToNumber : string -> option Q.

Context {Row Key : Type}.
Variable field : Row -> Key -> Cell.
Variable key : Key.
Variable dir : SortDir.

Let cmp := comparator localeCompare StringToNumber field key dir.
Let nullish (r : Row) : bool := is_nullish (field r key).

(** A row without a value is never called smaller, and a row with one is
    called smaller than every row without: before the direction is looked
    at. *)
Lemma missing_never_negative x e : nullish x = true -> negative (cmp x e) = false.
Proof. unfold nullish, cmp, comparator. intros ->. reflexivity. Qed.

Lemma present_negative_to_missing x e :
  nullish x = false -> nullish e = true -> negative (cmp x e) = true.
Proof. unfold nullish, cmp, comparator. intros -> ->. reflexivity. Qed.

Lemma negative_keeps_missing_behind a b :
  negative (cmp a b) = true -> nullish a = true -> nullish b = true.
Proof.
  intros Hneg Ha. by rewrite (missing_never_negative a b Ha) in Hneg.
Qed.

Lemma not_negative_keeps_missing_behind a b :
  negative (cmp a b) = false -> nullish b = true -> nullish a = true.
Proof.
  intros Hneg Hb. destruct (nullish a) eqn:Ha; [reflexivity|].
  by rewrite (present_negative_to_missing a b Ha Hb) in Hneg.
Qed.

Lemma sort_rows_perm rows :
  sort_rows localeCompare StringToNumber field key dir rows ≡ₚ rows.
Proof. apply array_sort_rearranges. Qed.

Lemma sort_rows_nulls_last rows :
  nulls_last nullish (sort_rows localeCompare StringToNumber field key dir rows).
Proof.
  apply ordered_nulls_last. unfold sort_rows. apply array_sort_ordered.
  - intros a b c Hab Hbc Ha. auto.
  - apply negative_keeps_missing_behind.
  - apply not_negative_keeps_missing_behind.
Qed.

Lemma sort_rows_missing_in_place rows :
  List.filter nullish (sort_rows localeCompare StringToNumber field key dir rows)
  = List.filter nullish rows.
Proof. apply array_sort_keeps_late, missing_never_negative. Qed.

End SortFacts.

Section TableFacts.

Import ViewTable Spec.

Variable localeCompare : string -> string -> Q.
Variable StringToNumber : string -> option Q.

(** C4. Whatever the rows, the column and the direction, the comparator
    sends a row whose cell is [null] or [undefined] behind every row with a
    value before it looks at the direction: the sorted array is a
    rearrangement of the rows in which all rows with a value come first and
    all rows without one come last, in the order they had. This holds for
    the table's own [filtered] rows. The column 3, null, 1, null, 2 comes
    out as 1, 2, 3, null, null ascending and 3, 2, 1, null, null descending,
    and the rows A = 3, B absent, C = 1, D = null, E = 2 as C, E, A, B, D
    and A, E, C, B, D. *)
Theorem nulls_sort_last_in_both_directions :
  (forall (Row Key : Type) (field : Row -> Key -> Cell) (key : Key)
          (dir : SortDir) (rows : list Row),
     let missing := fun r => is_nullish (field r key) in
     let sorted := sort_rows localeCompare StringToNumber field key dir rows in
     sorted ≡ₚ rows /\
     nulls_last missing sorted /\
     List.filter missing sorted = List.filter missing rows) /\
  (forall (coins : list CoinData) (search : string) (s : SortSpec),
     nulls_last (fun c => is_nullish (coin_field c (sortKey s)))
       (filtered localeCompare StringToNumber coins search s)) /\
  sort_rows localeCompare StringToNumber column_value tt asc numbers_with_nulls
    = [CNum 1; CNum 2; CNum 3; CNull; CNull] /\
  sort_rows localeCompare StringToNumber column_value tt desc numbers_with_nulls
    = [CNum 3; CNum 2; CNum 1; CNull; CNull] /\
  sort_rows localeCompare StringToNumber labelled_value tt asc labelled_rows
    = [("C", CNum 1); ("E", CNum 2); ("A", CNum 3); ("B", CUndefined); ("D", CNull)] /\
  sort_rows localeCompare StringToNumber labelled_value tt desc labelled_rows
    = [("A", CNum 3); ("E", CNum 2); ("C", CNum 1); ("B", CUndefined); ("D", CNull)] /\
  coin <$> filtered localeCompare StringToNumber pnl_rows ""
             {| sortKey := K_total_pnl; sortDir := asc |}
    = ["C"; "E"; "A"; "B"; "D"] /\
  coin <$> filtered localeCompare StringToNumber pnl_rows ""
             {| sortKey := K_total_pnl; sortDir := desc |}
    = ["A"; "E"; "C"; "B"; "D"].
Proof.
  split; [|split; [|split; [|split; [|split; [|split; [|split]]]]]].
  - intros Row Key field key dir rows missing sorted. split; [|split].
    + apply sort_rows_perm.
    + apply sort_rows_nulls_last.
    + apply sort_rows_missing_in_place.
  - intros coins search s. unfold filtered. apply sort_rows_nulls_last.
  - reflexivity.
  - reflexivity.
  - reflexivity.
  - reflexivity.
  - reflexivity.
  - reflexivity.
Qed.

Lemma append_nil t : String.append "" t = t.
Proof. reflexivity. Qed.

Lemma append_cons c s t :
  String.append (String c s) t = String c (String.append s t).
Proof. reflexivity. Qed.

Lemma prefix_spec q s :
  String.prefix q s = true <-> exists post, s = String.append q post.
Proof.
  revert s. induction q as [|a q IH]; intros [|b s]; simpl.
  - split; [intros _; by exists "" | reflexivity].
  - split; [intros _; by exists (String b s) | reflexivity].
  - split; [discriminate | intros [post H]; discriminate].
  - destruct (Ascii.ascii_dec a b) as [->|Hne].
    + rewrite IH. split; intros [post H]; exists post;
        rewrite append_cons in *; congruence.
    + split; [discriminate|]. intros [post H]. rewrite append_cons in H. congruence.
Qed.

Lemma includes_unfold s q :
  includes s q =
  if String.prefix q s then true
  else match s with
       | EmptyString => false
       | String _ rest => includes rest q
       end.
Proof. destruct s; reflexivity. Qed.

Lemma includes_spec s q : includes s q = true <-> contains s q.
Proof.
  unfold contains. induction s as [|c s IH]; rewrite includes_unfold.
  - destruct (String.prefix q "") eqn:E.
    + split; [intros _|reflexivity].
      apply prefix_spec in E as [post H]. by exists "", post.
    + split; [discriminate|]. intros ([|? pre] & post & H).
      * rewrite append_nil in H.
        assert (String.prefix q "" = true) by (apply prefix_spec; eauto).
        congruence.
      * rewrite append_cons in H. discriminate.
  - destruct (String.prefix q (String c s)) eqn:E.
    + split; [intros _|reflexivity].
      apply prefix_spec in E as [post H]. by exists "", post.
    + rewrite IH. split.
      * intros (pre & post & ->). by exists (String c pre), post.
      * intros ([|c' pre] & post & H).
        -- rewrite append_nil in H.
           assert (String.prefix q (String c s) = true)
             by (apply prefix_spec; eauto).
           congruence.
        -- rewrite append_cons in H. injection H as -> ->. eauto.
Qed.

Lemma includes_empty s : includes s "" = true.
Proof. destruct s; reflexivity. Qed.

Lemma filter_all {A : Type} (f : A -> bool) (l : list A) :
  (forall x, f x = true) -> List.filter f l = l.
Proof. intros H. induction l as [|x l IH]; simpl; [|rewrite H, IH]; reflexivity. Qed.

Lemma filter_sublist {A : Type} (f : A -> bool) (l : list A) :
  sublist (List.filter f l) l.
Proof.
  induction l as [|x l IH]; simpl; [constructor|].
  destruct (f x); by constructor.
Qed.

(** C6. The search box keeps a row exactly when its ticker, lower-cased,
    contains the lower-cased search string; kept rows stay in their order;
    the empty string keeps every row; the table shows the kept rows,
    rearranged by the sort; and "et" keeps ETH alone out of BTC, ETH, SOL. *)
Theorem filter_keeps_matching_rows :
  forall (coins : list CoinData) (search : string),
    (forall c, In c (filter_rows coins search) <->
               In c coins /\ contains (toLowerCase (coin c)) (toLowerCase search)) /\
    sublist (filter_rows coins search) coins /\
    filter_rows coins "" = coins /\
    (forall s, filtered localeCompare StringToNumber coins search s
               ≡ₚ filter_rows coins search) /\
    coin <$> filter_rows three_coins "et" = ["ETH"] /\
    (forall s, coin <$> filtered localeCompare StringToNumber three_coins "et" s = ["ETH"]).
Proof.
  intros coins search. split; [|split; [|split; [|split; [|split]]]].
  - intros c. unfold filter_rows. rewrite filter_In, includes_spec. reflexivity.
  - apply filter_sublist.
  - unfold filter_rows. apply filter_all. intros c. apply includes_empty.
  - intros s. unfold filtered. apply sort_rows_perm.
  - reflexivity.
  - intros s. reflexivity.
Qed.

(** C7. A click on the active column keeps the column and flips the
    direction, ascending to descending and descending to ascending; a click
    on another column selects it, ascending. Two clicks on the active
    column give back the sort state, and with it the very same rows in the
    very same order: the coins with the total PnL 3, none, 1, none, 2,
    shown as C, E, A, B, D, are shown as A, E, C, B, D after one click on
    the PnL header and as C, E, A, B, D again after the second. *)
Theorem sort_toggle :
  forall (s : SortSpec) (key : SortKey),
    handleSort key {| sortKey := key; sortDir := asc |}
      = {| sortKey := key; sortDir := desc |} /\
    handleSort key {| sortKey := key; sortDir := desc |}
      = {| sortKey := key; sortDir := asc |} /\
    sortKey (handleSort (sortKey s) s) = sortKey s /\
    sortDir (handleSort (sortKey s) s) <> sortDir s /\
    handleSort (sortKey s) (handleSort (sortKey s) s) = s /\
    (forall coins search,
       filtered localeCompare StringToNumber coins search
         (handleSort (sortKey s) (handleSort (sortKey s) s))
       = filtered localeCompare StringToNumber coins search s) /\
    (key <> sortKey s -> handleSort key s = {| sortKey := key; sortDir := asc |}) /\
    (let by_pnl := {| sortKey := K_total_pnl; sortDir := asc |} in
     coin <$> filtered localeCompare StringToNumber pnl_rows "" by_pnl
       = ["C"; "E"; "A"; "B"; "D"] /\
     coin <$> filtered localeCompare StringToNumber pnl_rows ""
                (handleSort K_total_pnl by_pnl)
       = ["A"; "E"; "C"; "B"; "D"] /\
     coin <$> filtered localeCompare StringToNumber pnl_rows ""
                (handleSort K_total_pnl (handleSort K_total_pnl by_pnl))
       = ["C"; "E"; "A"; "B"; "D"]).
Proof.
  intros s key.
  assert (Hup : handleSort key {| sortKey := key; sortDir := asc |}
                = {| sortKey := key; sortDir := desc |}).
  { unfold handleSort. cbn [sortKey sortDir]. case_decide; [reflexivity | congruence]. }
  assert (Hdown : handleSort key {| sortKey := key; sortDir := desc |}
                  = {| sortKey := key; sortDir := asc |}).
  { unfold handleSort. cbn [sortKey sortDir]. case_decide; [reflexivity | congruence]. }
  assert (H1 : handleSort (sortKey s) s
               = {| sortKey := sortKey s; sortDir := flip (sortDir s) |}).
  { unfold handleSort. case_decide; [reflexivity | congruence]. }
  assert (H2 : handleSort (sortKey s) (handleSort (sortKey s) s) = s).
  { rewrite H1. unfold handleSort. cbn [sortKey sortDir].
    case_decide; [|congruence]. destruct s as [k []]; reflexivity. }
  split; [exact Hup|]. split; [exact Hdown|].
  split; [by rewrite H1|].
  split; [rewrite H1; cbn [sortDir]; by destruct (sortDir s)|].
  split; [exact H2|]. split; [|split].
  - intros coins search. by rewrite H2.
  - intros Hne. unfold handleSort. case_decide; [congruence | reflexivity].
  - cbv zeta. split; [|split]; reflexivity.
Qed.

End TableFacts.

Lemma sort_toggle_witness :
  let s := ViewTable.initial_sort in
  ViewTable.K_total_pnl <> ViewTable.sortKey s /\
  ViewTable.handleSort ViewTable.K_total_pnl s
    = {| ViewTable.sortKey := ViewTable.K_total_pnl;
         ViewTable.sortDir := ViewTable.asc |} /\
  ViewTable.handleSort ViewTable.K_total_pnl
    (ViewTable.handleSort ViewTable.K_total_pnl s)
    = {| ViewTable.sortKey := ViewTable.K_total_pnl;
         ViewTable.sortDir := ViewTable.desc |} /\
  ViewTable.handleSort ViewTable.K_coin s
    = {| ViewTable.sortKey := ViewTable.K_coin;
         ViewTable.sortDir := ViewTable.desc |}.
Proof.
  intros s.
  assert (Hne : ViewTable.K_total_pnl <> ViewTable.sortKey s) by discriminate.
  pose proof (sort_toggle (fun _ _ => 0%Q) (fun _ => None) s ViewTable.K_total_pnl)
    as (Hup & _ & _ & _ & _ & _ & Hother & _).
  pose proof (sort_toggle (fun _ _ => 0%Q) (fun _ => None) s ViewTable.K_coin)
    as (Hcoin & _).
  split; [exact Hne|]. split; [exact (Hother Hne)|].
  split; [rewrite (Hother Hne); exact Hup | exact Hcoin].
Defined.

(** * Further properties *)

(** ** The provider once mounted *)

Section LifecycleFacts.

Import EventBus Connection Spec Lifecycle.

Context {St : Type}.
Variable behaviour : HandlerId -> JSValue -> St -> Outcome St.
Variable JSON_stringify : JSValue -> string.

Lemma latest_lookup (olds : list ReadyState) cur i r :
  Forall (fun r => r = CLOSED) olds ->
  (olds ++ [cur]) !! i = Some r -> r <> CLOSED ->
  i = length olds /\ r = cur.
Proof.
  intros Hold Hi Hr. destruct (decide (i < length olds)) as [Hlt|Hge].
  - rewrite lookup_app_l in Hi by exact Hlt.
    by rewrite (Forall_lookup_1 _ _ _ _ Hold Hi) in Hr.
  - rewrite lookup_app_r in Hi by lia.
    destruct (i - length olds) as [|k] eqn:E; simpl in Hi; [|discriminate].
    injection Hi as <-. split; [lia | reflexivity].
Qed.

Lemma latest_insert (olds : list ReadyState) cur r :
  <[length olds := r]> (olds ++ [cur]) = olds ++ [r].
Proof. rewrite insert_app_r_alt by lia. by rewrite Nat.sub_diag. Qed.

Lemma latest_at (olds : list ReadyState) cur :
  (olds ++ [cur]) !! length olds = Some cur.
Proof. rewrite lookup_app_r by lia. by rewrite Nat.sub_diag. Qed.

Lemma mounted_once_mount (st : St) : mounted_once (mount (init st)).
Proof. exists [], CONNECTING. repeat split; constructor. Qed.

Lemma filter_own_timer (id : nat) (due : Z) :
  filter (fun t : nat * Z => t.1 ≠ id) [(id, due)] = [].
Proof. rewrite filter_cons. case_decide; [simpl in *; congruence | reflexivity]. Qed.

Ltac latest :=
  repeat first
    [ rewrite latest_at
    | rewrite latest_insert
    | rewrite filter_own_timer
    | rewrite filter_nil ].

Lemma mounted_once_step fuel x (p p' : Provider St) :
  mounted_once p -> x <> Mount ->
  step behaviour JSON_stringify fuel x p = Some p' -> mounted_once p'.
Proof.
  intros (olds & cur & Hs & Hold & Hw & Hcur) Hx Hstep.
  destruct p as [ss w c ref ts n k o cs b]; cbn in Hs, Hw, Hcur. subst ss w.
  destruct x; cbn [step] in Hstep.
  - congruence.
  - injection Hstep as <-. unfold unmount. cbn [reconnectTimeoutRef].
    assert (Hclear : exists ts',
               clearTimeout ref
                 {| sockets := olds ++ [cur]; wsRef := Some (length olds);
                    connected := c; reconnectTimeoutRef := ref; timers := ts;
                    timer_seq := n; clock := k; outbox := o; connects := cs;
                    bus := b |}
               = {| sockets := olds ++ [cur]; wsRef := Some (length olds);
                    connected := c; reconnectTimeoutRef := ref; timers := ts';
                    timer_seq := n; clock := k; outbox := o; connects := cs;
                    bus := b |} /\
               ts' = []).
    { destruct ref as [id|]; cbn.
      - eexists. split; [reflexivity|].
        destruct cur as [| | |]; [by destruct Hcur as [-> ?] | by destruct Hcur as [-> ?]
                                  | by rewrite Hcur |].
        destruct Hcur as [_ [-> | (id' & due & -> & [= ->])]]; [reflexivity|].
        apply filter_own_timer.
      - eexists. split; [reflexivity|].
        destruct cur as [| | |]; [by destruct Hcur as [-> ?] | by destruct Hcur as [-> ?]
                                  | by rewrite Hcur |].
        destruct Hcur as [_ [-> | (id' & due & -> & [=])]]; reflexivity. }
    destruct Hclear as (ts' & -> & ->). cbn [wsRef]. unfold ws_close. cbn [sockets].
    rewrite latest_at.
    destruct cur; unfold set_ready; cbn; latest.
    + exists olds, CLOSING. repeat split; auto.
    + exists olds, CLOSING. repeat split; auto.
    + exists olds, CLOSING. repeat split; auto.
    + exists olds, CLOSED. repeat split; auto. tauto.
  - (* SocketOpen *)
    destruct ((olds ++ [cur]) !! i) as [r|] eqn:E; cbn [sockets] in Hstep;
      rewrite E in Hstep; [|discriminate].
    destruct r; try discriminate. injection Hstep as <-.
    destruct (latest_lookup olds cur i CONNECTING Hold E) as [-> <-]; [discriminate|].
    destruct Hcur as [-> ->].
    unfold onopen, set_connected, set_ready; cbn; latest.
    exists olds, OPEN. repeat split; auto.
  - (* SocketMessage *)
    destruct ((olds ++ [cur]) !! i) as [r|] eqn:E; cbn [sockets] in Hstep;
      rewrite E in Hstep; [|discriminate].
    destruct r; try discriminate. injection Hstep as <-.
    exists olds, cur. repeat split; auto.
  - (* SocketError *)
    destruct ((olds ++ [cur]) !! i) as [r|] eqn:E; cbn [sockets] in Hstep;
      rewrite E in Hstep; [|discriminate].
    destruct (is_closed r) eqn:Hr; [discriminate|]. injection Hstep as <-.
    destruct (latest_lookup olds cur i r Hold E) as [-> <-];
      [by destruct r|].
    unfold onerror, ws_close. cbn [sockets]. rewrite E.
    destruct r; try discriminate; unfold set_ready; cbn; latest.
    + exists olds, CLOSING. destruct Hcur as [-> ->]. repeat split; auto.
    + exists olds, CLOSING. destruct Hcur as [-> ->]. repeat split; auto.
    + exists olds, CLOSING. repeat split; auto.
  - (* SocketClose *)
    destruct ((olds ++ [cur]) !! i) as [r|] eqn:E; cbn [sockets] in Hstep;
      rewrite E in Hstep; [|discriminate].
    destruct (is_closed r) eqn:Hr; [discriminate|]. injection Hstep as <-.
    destruct (latest_lookup olds cur i r Hold E) as [-> <-];
      [by destruct r|].
    assert (Hts : ts = []).
    { destruct r; try discriminate; [by destruct Hcur | by destruct Hcur | exact Hcur]. }
    subst ts.
    unfold onclose, schedule_reconnect, set_connected, set_ready; cbn; latest.
    exists olds, CLOSED. repeat split; auto. right. eauto.
  - (* TimerFire *)
    destruct (timer_due id _) eqn:Hdue; [|discriminate]. injection Hstep as <-.
    unfold timer_due in Hdue. cbn [timers clock] in Hdue.
    assert (Hc : cur = CLOSED /\ c = false /\ exists due, ts = [(id, due)]).
    { destruct cur.
      - destruct Hcur as [-> _]. discriminate.
      - destruct Hcur as [-> _]. discriminate.
      - rewrite Hcur in Hdue. discriminate.
      - destruct Hcur as [-> [-> | (id' & due & -> & _)]]; [discriminate|].
        cbn in Hdue. rewrite orb_false_r in Hdue.
        apply andb_prop in Hdue as [Hid _]. apply Nat.eqb_eq in Hid. subst id'.
        eauto. }
    destruct Hc as (-> & -> & due & ->).
    unfold connect, remove_timer; cbn; latest.
    exists (olds ++ [CLOSED]), CONNECTING. repeat split; auto.
    + apply Forall_app. split; [exact Hold | by repeat constructor].
    + cbn. case_decide; [congruence | reflexivity].
  - (* Advance *)
    destruct (0 <=? ms)%Z; [|discriminate]. injection Hstep as <-.
    exists olds, cur. repeat split; auto.
  - (* Send *)
    injection Hstep as <-. unfold send. cbn [wsRef sockets]. rewrite latest_at.
    destruct cur;
      [exists olds, CONNECTING | exists olds, OPEN
       | exists olds, CLOSING | exists olds, CLOSED]; repeat split; tauto.
  - injection Hstep as <-. exists olds, cur. repeat split; auto.
  - injection Hstep as <-. exists olds, cur. repeat split; auto.
Qed.

Lemma mounted_once_steps fuel xs (p p' : Provider St) :
  mounted_once p -> Mount ∉ xs ->
  steps behaviour JSON_stringify fuel xs p = Some p' -> mounted_once p'.
Proof.
  revert p. induction xs as [|x xs IH]; intros p Hp Hxs Hsteps; cbn [steps] in Hsteps.
  - by injection Hsteps as <-.
  - apply not_elem_of_cons in Hxs as [Hx Hxs].
    destruct (step behaviour JSON_stringify fuel x p) as [p1|] eqn:E; [|discriminate].
    apply (IH p1); [|exact Hxs|exact Hsteps].
    eapply mounted_once_step; [exact Hp | by apply not_eq_sym | exact E].
Qed.

Lemma mounted_once_reached fuel xs (st : St) (p : Provider St) :
  Mount ∉ xs ->
  steps behaviour JSON_stringify fuel (Mount :: xs) (init st) = Some p ->
  mounted_once p.
Proof.
  intros Hxs Hsteps. cbn [steps step] in Hsteps.
  eapply mounted_once_steps; [apply mounted_once_mount | exact Hxs | exact Hsteps].
Qed.

Lemma mounted_once_live (p : Provider St) :
  mounted_once p -> live_socket_is_current p.
Proof.
  intros (olds & cur & Hs & Hold & Hw & _) i r Hi Hr.
  rewrite Hs in Hi. destruct (latest_lookup olds cur i r Hold Hi Hr) as [-> _].
  exact Hw.
Qed.

Lemma mounted_once_pending (p : Provider St) :
  mounted_once p -> one_pending_reconnect p.
Proof.
  intros (olds & cur & Hs & Hold & Hw & Hcur). unfold one_pending_reconnect.
  destruct cur; try tauto.
  destruct Hcur as [_ [Ht | Ht]]; [by left | right].
  split; [|exact Ht]. rewrite Hs. apply Forall_app. split; [exact Hold|].
  by repeat constructor.
Qed.

Lemma mounted_once_flag (p : Provider St) :
  mounted_once p -> flag_follows_socket p.
Proof.
  intros (olds & cur & Hs & Hold & Hw & Hcur). split.
  - intros i Hi Hopen. rewrite Hw in Hi. injection Hi as <-.
    rewrite Hs, latest_at in Hopen. injection Hopen as ->. tauto.
  - intros Hc. exists (length olds), cur. split; [exact Hw|].
    split; [rewrite Hs; apply latest_at|].
    destruct cur; try tauto; destruct Hcur as [? ?]; congruence.
Qed.

Lemma close_schedules_reconnect fuel i (p p' : Provider St) :
  mounted_once p ->
  step behaviour JSON_stringify fuel (SocketClose i) p = Some p' ->
  timers p' = [(timer_seq p, (clock p + RECONNECT_DELAY)%Z)] /\
  clock p' = clock p /\ connects p' = connects p.
Proof.
  intros (olds & cur & Hs & Hold & Hw & Hcur) Hstep. cbn [step] in Hstep.
  rewrite Hs in Hstep.
  destruct ((olds ++ [cur]) !! i) as [r|] eqn:E; [|discriminate].
  destruct (is_closed r) eqn:Hr; [discriminate|]. injection Hstep as <-.
  destruct (latest_lookup olds cur i r Hold E) as [-> <-]; [by destruct r|].
  assert (Hts : timers p = []).
  { destruct r; try discriminate; [by destruct Hcur | by destruct Hcur | exact Hcur]. }
  cbn. rewrite Hts. repeat split.
Qed.

Lemma closed_unmount_quiescent (p : Provider St) i :
  mounted_once p -> wsRef p = Some i -> sockets p !! i = Some CLOSED ->
  quiescent (unmount p).
Proof.
  intros (olds & cur & Hs & Hold & Hw & Hcur) Hi Hclosed.
  rewrite Hw in Hi. injection Hi as <-.
  rewrite Hs, latest_at in Hclosed. injection Hclosed as ->.
  assert (Hall : Forall (fun r => r = CLOSED) (sockets p)).
  { rewrite Hs. apply Forall_app. split; [exact Hold | by repeat constructor]. }
  destruct Hcur as [_ [Ht | (id & due & Ht & Href)]].
  - assert (Hq : quiescent (clearTimeout (reconnectTimeoutRef p) p)).
    { destruct (reconnectTimeoutRef p); split; cbn; auto. by rewrite Ht. }
    unfold unmount.
    destruct (wsRef (clearTimeout (reconnectTimeoutRef p) p)) as [j|]; [|exact Hq].
    unfold ws_close.
    destruct (sockets (clearTimeout (reconnectTimeoutRef p) p) !! j) as [r|] eqn:E;
      [|exact Hq].
    destruct Hq as [Hq1 Hq2]. rewrite (Forall_lookup_1 _ _ _ _ Hq2 E). by split.
  - apply (unmount_after_close_is_final id p Href); [|exact Hall].
    rewrite Ht. by repeat constructor.
Qed.

(** X1. A provider that is mounted once never has two transports: in
    every state it can reach, a socket that is not closed is the one in
    [wsRef], and a reconnection timer is pending only while every socket is
    closed, in which case it is the single timer [reconnectTimeoutRef]
    names. Unmounting is among the inputs allowed. *)
Theorem one_socket_at_a_time :
  forall (st : St) (fuel : nat) (xs : list Input) (p : Provider St),
    Mount ∉ xs ->
    steps behaviour JSON_stringify fuel (Mount :: xs) (init st) = Some p ->
    live_socket_is_current p /\ one_pending_reconnect p.
Proof.
  intros st fuel xs p Hxs Hsteps.
  pose proof (mounted_once_reached fuel xs st p Hxs Hsteps) as Hp.
  split; [by apply mounted_once_live | by apply mounted_once_pending].
Qed.

(** X2. In the same states the [connected] flag tells the truth about the
    socket with one delay: it is set whenever the current socket is open,
    and when it is set the current socket is open or, after [close()] and
    before its close event, closing. *)
Theorem connected_flag_follows_socket :
  forall (st : St) (fuel : nat) (xs : list Input) (p : Provider St),
    Mount ∉ xs ->
    steps behaviour JSON_stringify fuel (Mount :: xs) (init st) = Some p ->
    flag_follows_socket p.
Proof.
  intros st fuel xs p Hxs Hsteps.
  by apply mounted_once_flag, (mounted_once_reached fuel xs st).
Qed.

(** X3. After a close event the only timer that can fire is the
    reconnection it scheduled, and not before 3000 ms have passed: the pair
    "advance the clock by [ms], fire timer [id]" is possible exactly for
    that timer and [ms >= 3000], and then [connect] runs at that time. *)
Theorem reconnect_waits_for_delay :
  forall (st : St) (fuel : nat) (xs : list Input) (i : nat) (p p' : Provider St),
    Mount ∉ xs ->
    steps behaviour JSON_stringify fuel (Mount :: xs) (init st) = Some p ->
    step behaviour JSON_stringify fuel (SocketClose i) p = Some p' ->
    forall (id : nat) (ms : Z),
      (0 <= ms)%Z ->
      (is_Some (steps behaviour JSON_stringify fuel [Advance ms; TimerFire id] p')
       <-> id = timer_seq p /\ (3000 <= ms)%Z) /\
      (forall p'',
         steps behaviour JSON_stringify fuel [Advance ms; TimerFire id] p' = Some p'' ->
         connects p'' = connects p ++ [(clock p + ms)%Z]).
Proof.
  intros st fuel xs i p p' Hxs Hsteps Hclose id ms Hms.
  pose proof (mounted_once_reached fuel xs st p Hxs Hsteps) as Hp.
  destruct (close_schedules_reconnect fuel i p p' Hp Hclose) as (Ht & Hk & Hc).
  cbn [steps step]. apply Z.leb_le in Hms. rewrite Hms.
  unfold timer_due. cbn [timers clock set_clock]. rewrite Hk. rewrite Ht. cbn [existsb fst snd].
  rewrite orb_false_r. unfold RECONNECT_DELAY.
  destruct (Nat.eqb_spec (timer_seq p) id) as [<-|Hne]; cbn [andb].
  - destruct (Z.leb_spec (clock p + 3000) (clock p + ms)) as [Hle|Hgt].
    + split.
      * split; [intros _; split; [reflexivity | lia] | intros _; eauto].
      * intros p'' [= <-]. cbn. by rewrite Hc.
    + split; [|discriminate]. split; [by intros [? [=]] | intros [_ ?]; lia].
  - split; [|discriminate]. split; [by intros [? [=]] | intros [? _]; congruence].
Qed.

(** X4. Teardown holds when the socket has already closed: if the current
    socket is closed when the provider unmounts, the cleanup cancels the
    pending reconnection, and no input short of a new mount makes the
    provider call [connect] again. *)
Theorem teardown_after_close_is_final :
  forall (st : St) (fuel : nat) (xs ys : list Input) (i : nat) (p p' : Provider St),
    Mount ∉ xs ->
    steps behaviour JSON_stringify fuel (Mount :: xs) (init st) = Some p ->
    wsRef p = Some i -> sockets p !! i = Some CLOSED ->
    Mount ∉ ys ->
    steps behaviour JSON_stringify fuel (Unmount :: ys) p = Some p' ->
    connects p' = connects p /\ quiescent p'.
Proof.
  intros st fuel xs ys i p p' Hxs Hsteps Hi Hclosed Hys Hafter.
  pose proof (mounted_once_reached fuel xs st p Hxs Hsteps) as Hp.
  pose proof (closed_unmount_quiescent p i Hp Hi Hclosed) as Hq.
  cbn [steps step] in Hafter.
  destruct (quiescent_steps behaviour JSON_stringify fuel ys (unmount p) p' Hq Hys Hafter)
    as [Hq' Hc].
  split; [|exact Hq']. rewrite Hc.
  unfold unmount.
  assert (Hcl : forall r (q : Provider St), connects (clearTimeout r q) = connects q)
    by (intros [] q; reflexivity).
  destruct (wsRef (clearTimeout (reconnectTimeoutRef p) p)) as [j|]; [|apply Hcl].
  unfold ws_close.
  destruct (sockets (clearTimeout (reconnectTimeoutRef p) p) !! j) as [[]|];
    cbn [connects set_ready]; apply Hcl.
Qed.

Lemma length_clear_timer id (ts : list (nat * Z)) :
  length (filter (fun t : nat * Z => t.1 ≠ id) ts) <= length ts.
Proof. apply length_filter. Qed.

Lemma remove_timer_shrinks id (p : Provider St) :
  timer_due id p = true ->
  length (timers (remove_timer id p)) < length (timers p).
Proof.
  unfold timer_due, remove_timer. cbn [timers].
  induction (timers p) as [|[n due] ts IH]; cbn [existsb]; [discriminate|].
  intros Hdue. rewrite filter_cons. cbn [fst snd] in *.
  destruct (Nat.eqb_spec n id) as [->|Hne].
  - case_decide; [congruence|]. cbn [length].
    apply Nat.lt_succ_r, length_filter.
  - cbn [andb orb] in Hdue. case_decide; [|congruence]. cbn [length].
    apply -> Nat.succ_lt_mono. exact (IH Hdue).
Qed.

Lemma step_budget fuel x (p p' : Provider St) :
  step behaviour JSON_stringify fuel x p = Some p' ->
  length (connects p') + length (timers p') <=
  length (connects p) + length (timers p)
  + Nat.b2n (is_mount x) + Nat.b2n (is_close_event x).
Proof.
  intros Hstep. destruct x; cbn [step] in Hstep; cbn [is_mount is_close_event Nat.b2n].
  - injection Hstep as <-. cbn. rewrite length_app. cbn. lia.
  - injection Hstep as <-. unfold unmount.
    assert (Hcl : length (timers (clearTimeout (reconnectTimeoutRef p) p))
                  <= length (timers p) /\
                  connects (clearTimeout (reconnectTimeoutRef p) p) = connects p).
    { destruct (reconnectTimeoutRef p); cbn; [|split; [lia | reflexivity]].
      split; [apply length_clear_timer | reflexivity]. }
    set (q := clearTimeout (reconnectTimeoutRef p) p) in *.
    destruct Hcl as [Hl Hc].
    assert (Hq : length (connects q) + length (timers q)
                 <= length (connects p) + length (timers p) + 0 + 0)
      by (rewrite Hc; lia).
    destruct (wsRef q) as [i|]; [|exact Hq].
    unfold ws_close.
    destruct (sockets q !! i) as [[]|]; cbn [connects timers set_ready]; exact Hq.
  - destruct (sockets p !! i) as [[]|]; try discriminate.
    injection Hstep as <-. cbn. lia.
  - destruct (sockets p !! i) as [[]|]; try discriminate.
    injection Hstep as <-. cbn. lia.
  - destruct (sockets p !! i) as [r|] eqn:E; [|discriminate].
    destruct (is_closed r); [discriminate|]. injection Hstep as <-.
    unfold onerror, ws_close. rewrite E. destruct r; cbn; lia.
  - destruct (sockets p !! i) as [r|]; [|discriminate].
    destruct (is_closed r); [discriminate|]. injection Hstep as <-.
    cbn. rewrite length_app. cbn. lia.
  - destruct (timer_due id p) eqn:Hdue; [|discriminate]. injection Hstep as <-.
    pose proof (remove_timer_shrinks id p Hdue) as Hlt.
    cbn in *. rewrite length_app. cbn. lia.
  - destruct (0 <=? ms)%Z; [|discriminate]. injection Hstep as <-. cbn. lia.
  - injection Hstep as <-. unfold send.
    destruct (wsRef p) as [i|]; [|lia].
    destruct (sockets p !! i) as [[]|]; cbn; lia.
  - injection Hstep as <-. cbn. lia.
  - injection Hstep as <-. cbn. lia.
Qed.

Lemma steps_budget fuel xs (p p' : Provider St) :
  steps behaviour JSON_stringify fuel xs p = Some p' ->
  length (connects p') + length (timers p') <=
  length (connects p) + length (timers p)
  + length (List.filter is_mount xs) + length (List.filter is_close_event xs).
Proof.
  revert p. induction xs as [|x xs IH]; intros p Hsteps; cbn [steps] in Hsteps.
  - injection Hsteps as <-. cbn. lia.
  - destruct (step behaviour JSON_stringify fuel x p) as [p1|] eqn:E; [|discriminate].
    pose proof (step_budget fuel x p p1 E) as H1.
    pose proof (IH p1 Hsteps) as H2.
    cbn [List.filter]. destruct (is_mount x), (is_close_event x); cbn in *; lia.
Qed.

(** X5. The provider never connects on its own: over any inputs, the
    calls to [connect] made plus the reconnections still pending are at
    most the mounts plus the close events delivered. *)
Theorem connects_need_mount_or_close :
  forall (st : St) (fuel : nat) (xs : list Input) (p : Provider St),
    steps behaviour JSON_stringify fuel xs (init st) = Some p ->
    length (connects p) + length (timers p) <=
    length (List.filter is_mount xs) + length (List.filter is_close_event xs).
Proof.
  intros st fuel xs p Hsteps.
  pose proof (steps_budget fuel xs (init st) p Hsteps) as H. cbn in H. lia.
Qed.

End LifecycleFacts.

Lemma one_socket_at_a_time_witness :
  (Connection.Mount ∉ Lifecycle.open_then_close) /\
  Connection.steps Spec.first_throws Spec.no_text 1
    (Connection.Mount :: Lifecycle.open_then_close) (Connection.init tt)
    = Some Lifecycle.reconnecting /\
  Lifecycle.live_socket_is_current Lifecycle.reconnecting /\
  Lifecycle.one_pending_reconnect Lifecycle.reconnecting.
Proof.
  assert (Hxs : Connection.Mount ∉ Lifecycle.open_then_close)
    by (intros H; refute_elem H).
  assert (Hrun : Connection.steps Spec.first_throws Spec.no_text 1
                   (Connection.Mount :: Lifecycle.open_then_close) (Connection.init tt)
                 = Some Lifecycle.reconnecting) by reflexivity.
  split; [exact Hxs|]. split; [exact Hrun|].
  exact (one_socket_at_a_time Spec.first_throws Spec.no_text tt 1
           Lifecycle.open_then_close Lifecycle.reconnecting Hxs Hrun).
Defined.

Lemma connected_flag_follows_socket_witness :
  (Connection.Mount ∉ [Connection.SocketOpen 0]) /\
  Connection.steps Spec.first_throws Spec.no_text 1
    [Connection.Mount; Connection.SocketOpen 0] (Connection.init tt)
    = Some Lifecycle.opened_once /\
  Lifecycle.flag_follows_socket Lifecycle.opened_once.
Proof.
  assert (Hxs : Connection.Mount ∉ [Connection.SocketOpen 0])
    by (intros H; refute_elem H).
  assert (Hrun : Connection.steps Spec.first_throws Spec.no_text 1
                   [Connection.Mount; Connection.SocketOpen 0] (Connection.init tt)
                 = Some Lifecycle.opened_once) by reflexivity.
  split; [exact Hxs|]. split; [exact Hrun|].
  exact (connected_flag_follows_socket Spec.first_throws Spec.no_text tt 1
           [Connection.SocketOpen 0] Lifecycle.opened_once Hxs Hrun).
Defined.

Lemma reconnect_waits_for_delay_witness :
  (Connection.Mount ∉ [Connection.SocketOpen 0]) /\
  Connection.steps Spec.first_throws Spec.no_text 1
    [Connection.Mount; Connection.SocketOpen 0] (Connection.init tt)
    = Some Lifecycle.opened_once /\
  Connection.step Spec.first_throws Spec.no_text 1 (Connection.SocketClose 0)
    Lifecycle.opened_once = Some Lifecycle.reconnecting /\
  (0 <= 2999)%Z /\ (0 <= 3000)%Z /\
  ~ is_Some (Connection.steps Spec.first_throws Spec.no_text 1
               [Connection.Advance 2999; Connection.TimerFire 0] Lifecycle.reconnecting) /\
  is_Some (Connection.steps Spec.first_throws Spec.no_text 1
             [Connection.Advance 3000; Connection.TimerFire 0] Lifecycle.reconnecting) /\
  ~ is_Some (Connection.steps Spec.first_throws Spec.no_text 1
               [Connection.Advance 3000; Connection.TimerFire 1] Lifecycle.reconnecting).
Proof.
  assert (Hxs : Connection.Mount ∉ [Connection.SocketOpen 0])
    by (intros H; refute_elem H).
  assert (Hrun : Connection.steps Spec.first_throws Spec.no_text 1
                   [Connection.Mount; Connection.SocketOpen 0] (Connection.init tt)
                 = Some Lifecycle.opened_once) by reflexivity.
  assert (Hclose : Connection.step Spec.first_throws Spec.no_text 1
                     (Connection.SocketClose 0) Lifecycle.opened_once
                   = Some Lifecycle.reconnecting) by reflexivity.
  assert (Hearly : (0 <= 2999)%Z) by lia.
  assert (Hdue : (0 <= 3000)%Z) by lia.
  pose proof (reconnect_waits_for_delay Spec.first_throws Spec.no_text tt 1
                [Connection.SocketOpen 0] 0 Lifecycle.opened_once
                Lifecycle.reconnecting Hxs Hrun Hclose) as Hwait.
  split; [exact Hxs|]. split; [exact Hrun|]. split; [exact Hclose|].
  split; [exact Hearly|]. split; [exact Hdue|]. split; [|split].
  - intros Hfire. apply (proj1 (Hwait 0 2999%Z Hearly)) in Hfire. lia.
  - apply (proj1 (Hwait 0 3000%Z Hdue)). split; [reflexivity | lia].
  - intros Hfire. apply (proj1 (Hwait 1 3000%Z Hdue)) in Hfire.
    destruct Hfire as [Hid _]. discriminate Hid.
Defined.

Lemma teardown_after_close_is_final_witness :
  let later := [Connection.Advance 5000; Connection.Send "ping" JUndefined] in
  let final := default (Connection.init tt)
                 (Connection.steps Spec.first_throws Spec.no_text 1
                    (Connection.Unmount :: later) Lifecycle.reconnecting) in
  (Connection.Mount ∉ Lifecycle.open_then_close) /\
  Connection.steps Spec.first_throws Spec.no_text 1
    (Connection.Mount :: Lifecycle.open_then_close) (Connection.init tt)
    = Some Lifecycle.reconnecting /\
  Connection.wsRef Lifecycle.reconnecting = Some 0 /\
  Connection.sockets Lifecycle.reconnecting !! 0 = Some Connection.CLOSED /\
  (Connection.Mount ∉ later) /\
  Connection.steps Spec.first_throws Spec.no_text 1
    (Connection.Unmount :: later) Lifecycle.reconnecting = Some final /\
  Connection.connects final = Connection.connects Lifecycle.reconnecting.
Proof.
  intros later final.
  assert (Hxs : Connection.Mount ∉ Lifecycle.open_then_close)
    by (intros H; refute_elem H).
  assert (Hrun : Connection.steps Spec.first_throws Spec.no_text 1
                   (Connection.Mount :: Lifecycle.open_then_close) (Connection.init tt)
                 = Some Lifecycle.reconnecting) by reflexivity.
  assert (Hi : Connection.wsRef Lifecycle.reconnecting = Some 0) by reflexivity.
  assert (Hc : Connection.sockets Lifecycle.reconnecting !! 0 = Some Connection.CLOSED)
    by reflexivity.
  assert (Hys : Connection.Mount ∉ later) by (intros H; refute_elem H).
  assert (Hafter : Connection.steps Spec.first_throws Spec.no_text 1
                     (Connection.Unmount :: later) Lifecycle.reconnecting = Some final)
    by reflexivity.
  split; [exact Hxs|]. split; [exact Hrun|]. split; [exact Hi|].
  split; [exact Hc|]. split; [exact Hys|]. split; [exact Hafter|].
  exact (proj1 (teardown_after_close_is_final Spec.first_throws Spec.no_text tt 1
                  Lifecycle.open_then_close later 0 Lifecycle.reconnecting final
                  Hxs Hrun Hi Hc Hys Hafter)).
Defined.

Lemma connects_need_mount_or_close_witness :
  Connection.steps Spec.first_throws Spec.no_text 1
    (Connection.Mount :: Lifecycle.open_then_close) (Connection.init tt)
    = Some Lifecycle.reconnecting /\
  length (Connection.connects Lifecycle.reconnecting)
  + length (Connection.timers Lifecycle.reconnecting) <=
  length (List.filter Lifecycle.is_mount (Connection.Mount :: Lifecycle.open_then_close))
  + length (List.filter Lifecycle.is_close_event
              (Connection.Mount :: Lifecycle.open_then_close)).
Proof.
  assert (Hrun : Connection.steps Spec.first_throws Spec.no_text 1
                   (Connection.Mount :: Lifecycle.open_then_close) (Connection.init tt)
                 = Some Lifecycle.reconnecting) by reflexivity.
  split; [exact Hrun|].
  exact (connects_need_mount_or_close Spec.first_throws Spec.no_text tt 1
           (Connection.Mount :: Lifecycle.open_then_close) Lifecycle.reconnecting Hrun).
Defined.

(** ** The registry as a set *)

Section RegistrationFacts.

Import EventBus Spec.

Context {St : Type}.
Variable behaviour : HandlerId -> JSValue -> St -> Outcome St.

Lemma set_has_elem h (s : list (option nat)) : set_has h s = true <-> Some h ∈ s.
Proof.
  unfold set_has. rewrite existsb_exists. split.
  - intros ([g|] & Hin & Hg); [|discriminate]. apply Nat.eqb_eq in Hg. subst g.
    by apply list_elem_of_In.
  - intros Hin. exists (Some h). split; [by apply list_elem_of_In|].
    apply Nat.eqb_refl.
Qed.

Lemma set_add_present h (s : list (option nat)) : Some h ∈ s -> set_add h s = s.
Proof. intros Hin. unfold set_add. by rewrite (proj2 (set_has_elem h s) Hin). Qed.

Lemma set_add_elem h (s : list (option nat)) : Some h ∈ set_add h s.
Proof.
  unfold set_add. destruct (set_has h s) eqn:E.
  - by apply set_has_elem.
  - apply elem_of_app. right. by apply list_elem_of_singleton.
Qed.

Lemma set_add_keeps g h (s : list (option nat)) : Some g ∈ s -> Some g ∈ set_add h s.
Proof.
  intros Hin. unfold set_add. destruct (set_has h s); [exact Hin|].
  apply elem_of_app. by left.
Qed.

Lemma set_delete_keeps g h (s : list (option nat)) :
  Some g ∈ s -> g <> h -> Some g ∈ set_delete h s.
Proof.
  intros Hin Hne. unfold set_delete. apply list_elem_of_fmap.
  exists (Some g). split; [|exact Hin]. cbn.
  by destruct (Nat.eqb_spec g h).
Qed.

Lemma registered_after_subscribe t h (b : Bus St) : registered t h (subscribe t h b).
Proof.
  unfold registered, subscribe; cbn [handlers].
  rewrite lookup_insert_eq. cbn [default]. apply set_add_elem.
Qed.

Lemma registered_kept_by_subscribe t h t' h' (b : Bus St) :
  registered t' h' b -> registered t' h' (subscribe t h b).
Proof.
  unfold registered, subscribe; cbn [handlers]. intros Hr.
  destruct (decide (t' = t)) as [->|Hne].
  - rewrite lookup_insert_eq. cbn [default]. apply set_add_keeps.
    destruct (handlers b !! t) as [s|] eqn:E; cbn [default] in *.
    + by rewrite E.
    + by apply not_elem_of_nil in Hr.
  - rewrite lookup_insert_ne by congruence.
    destruct (handlers b !! t); [exact Hr|]. by rewrite lookup_insert_ne by congruence.
Qed.

Lemma registered_kept_by_unsubscribe t h t' h' (b : Bus St) :
  registered t' h' b -> ~ (t' = t /\ h' = h) ->
  registered t' h' (unsubscribe t h b).
Proof.
  unfold registered, unsubscribe; cbn [handlers]. intros Hr Hne.
  destruct (handlers b !! t) as [s|] eqn:E; [|exact Hr].
  destruct (decide (t' = t)) as [->|Ht].
  - rewrite lookup_insert_eq. rewrite E in Hr. cbn [default] in *.
    apply set_delete_keeps; [exact Hr | tauto].
  - by rewrite lookup_insert_ne by congruence.
Qed.

(** X6. The handlers of a type are a set: subscribing a handler that is
    already there changes nothing in the registry, and on a fresh registry
    two subscriptions of one handler leave it there once. *)
Theorem subscribe_is_idempotent :
  forall t h (b : Bus St),
    handlers (subscribe t h (subscribe t h b)) = handlers (subscribe t h b) /\
    handlers (subscribe t h (subscribe t h (empty_bus (app b)))) !! t = Some [Some h].
Proof.
  assert (Hidem : forall t h (b : Bus St),
            handlers (subscribe t h (subscribe t h b)) = handlers (subscribe t h b)).
  { intros t h b.
    pose proof (registered_after_subscribe t h b) as Hr. unfold registered in Hr.
    set (b1 := subscribe t h b) in *.
    unfold subscribe at 1. cbn [handlers].
    destruct (handlers b1 !! t) as [s|] eqn:E; cbn [default] in Hr.
    - rewrite E. cbn [default]. rewrite set_add_present by exact Hr.
      by apply insert_id.
    - by apply not_elem_of_nil in Hr. }
  intros t h b. split; [apply Hidem|]. rewrite Hidem.
  unfold subscribe. cbn [handlers empty_bus]. rewrite lookup_empty.
  by rewrite !lookup_insert_eq.
Qed.

(** X7. [subscribe] adds the one pair of type and handler it is given and
    [unsubscribe] takes away that one pair: every other registration, under
    the same type or another, is there afterwards exactly when it was there
    before. *)
Theorem registration_is_exact :
  forall t h t' h' (b : Bus St),
    (registered t' h' (subscribe t h b) <->
     registered t' h' b \/ (t' = t /\ h' = h)) /\
    (registered t' h' (unsubscribe t h b) <->
     registered t' h' b /\ ~ (t' = t /\ h' = h)).
Proof.
  intros t h t' h' b. split; split.
  - exact (registered_subscribe t h t' h' b).
  - intros [Hr | [-> ->]];
      [by apply registered_kept_by_subscribe | apply registered_after_subscribe].
  - exact (registered_unsubscribe behaviour t h t' h' b).
  - intros [Hr Hne]. by apply registered_kept_by_unsubscribe.
Qed.

Lemma forEach_quiet t payload (rest : list (option nat)) :
  forall (visited : list (option nat)) (b : Bus St) fuel,
    handlers b !! t = Some (visited ++ rest) ->
    (forall g st, Some g ∈ rest ->
       out_ops (behaviour g payload st) = [] /\
       out_throws (behaviour g payload st) = false) ->
    length rest < fuel ->
    exists b',
      forEach behaviour fuel t payload (length visited) b = (Normal, b') /\
      handlers b' = handlers b /\
      log b' = log b ++ ((fun g => EvInvoke t g payload) <$> omap id rest).
Proof.
  induction rest as [|[g|] rest IH]; intros visited b fuel Hset Hq Hfuel;
    (destruct fuel as [|fuel]; [simpl in Hfuel; lia|]); cbn [forEach];
    rewrite Hset; unfold default, from_option, id.
  - rewrite lookup_ge_None_2 by (rewrite app_nil_r; lia).
    exists b. by rewrite app_nil_r.
  - rewrite lookup_app_r, Nat.sub_diag by lia. cbn [lookup list_lookup].
    destruct (Hq g (app b)) as [Hops Hthrow]; [left|].
    destruct (invoke_quiet behaviour t g payload b Hops Hthrow) as (b1 & -> & Hh1 & Hl1).
    destruct (IH (visited ++ [Some g]) b1 fuel) as (b' & Hrun & Hh & Hl).
    + rewrite Hh1, Hset, <- app_assoc. reflexivity.
    + intros g' st' Hin. apply Hq. by right.
    + simpl in Hfuel. lia.
    + rewrite length_app in Hrun. simpl in Hrun.
      replace (length visited + 1) with (S (length visited)) in Hrun by lia.
      exists b'. split; [exact Hrun|]. split; [congruence|].
      rewrite Hl, Hl1, <- app_assoc. reflexivity.
  - rewrite lookup_app_r, Nat.sub_diag by lia. cbn [lookup list_lookup].
    destruct (IH (visited ++ [None]) b fuel) as (b' & Hrun & Hh & Hl).
    + rewrite Hset, <- app_assoc. reflexivity.
    + intros g' st' Hin. apply Hq. by right.
    + simpl in Hfuel. lia.
    + rewrite length_app in Hrun. simpl in Hrun.
      replace (length visited + 1) with (S (length visited)) in Hrun by lia.
      exists b'. split; [exact Hrun|]. split; [exact Hh | exact Hl].
Qed.

(** X8. A frame whose handlers neither throw nor touch the registry is
    handed to every handler registered for its type, once each, in the order
    in which they were subscribed; the registry is as before. *)
Theorem dispatch_reaches_every_handler :
  forall t payload (s : list (option nat)) (b : Bus St) fuel,
    handlers b !! t = Some s ->
    (forall g st, Some g ∈ s ->
       out_ops (behaviour g payload st) = [] /\
       out_throws (behaviour g payload st) = false) ->
    length s < fuel ->
    exists b',
      onmessage behaviour fuel (pushed t payload) b = (Normal, b') /\
      handlers b' = handlers b /\
      log b' = log b ++ ((fun g => EvInvoke t g payload) <$> omap id s).
Proof.
  intros t payload s b fuel Hset Hq Hfuel.
  destruct (forEach_quiet t payload s [] b fuel Hset Hq Hfuel) as (b' & Hrun & Hh & Hl).
  exists b'. split; [|auto].
  unfold onmessage, pushed. simpl. rewrite Hset.
  unfold get_prop_opt. simpl. simpl in Hrun. rewrite Hrun. reflexivity.
Qed.

End RegistrationFacts.

(** ** The hooks *)

Section HookFacts.

Import EventBus ResourceCache Spec Hooks.

Lemma hooks_registry (st : Caches) :
  handlers (hooks_mounted st) =
  <["blacklist_updated" := [Some H_BLACKLIST_UPDATED]]>
    (<["dashboard_update" := [Some H_DASHBOARD_UPDATE]]>
       (<["initial_state" := [Some H_INITIAL_STATE]]> ∅)).
Proof. vm_compute. reflexivity. Qed.

Lemma cleaned_registry (st : Caches) :
  handlers (useDashboard_cleanup (hooks_mounted st)) =
  <["blacklist_updated" := [Some H_BLACKLIST_UPDATED]]>
    (<["dashboard_update" := [None]]>
       (<["initial_state" := [None]]> ∅)).
Proof. vm_compute. reflexivity. Qed.

(** One registered handler of the hooks: the loop calls it and ends. *)
Lemma forEach_one_hook fuel t h payload (b : Bus Caches) :
  handlers b !! t = Some [Some h] ->
  forEach behaviour (S (S fuel)) t payload 0 b
  = (Normal, {| handlers := handlers b;
                app := out_state (behaviour h payload (app b));
                log := log b ++ [EvInvoke t h payload] |}).
Proof.
  intros H. cbn [forEach]. rewrite H. cbn [default from_option id lookup list_lookup].
  assert (Hq : forall g p st, out_ops (behaviour g p st) = [] /\
                              out_throws (behaviour g p st) = false).
  { intros [|[|[|g]]] p st; split; reflexivity. }
  destruct (Hq h payload (app b)) as [Hops Hthrow].
  unfold invoke. rewrite Hops, Hthrow. cbn [fold_left handlers]. rewrite H.
  reflexivity.
Qed.

(** A set whose only slot is empty: the loop calls nothing. *)
Lemma forEach_empty_slot fuel t payload (b : Bus Caches) :
  handlers b !! t = Some [None] ->
  (forEach behaviour fuel t payload 0 b).2 = b.
Proof.
  intros H. destruct fuel as [|[|fuel]]; [reflexivity| |].
  - cbn [forEach]. rewrite H. reflexivity.
  - cbn [forEach]. rewrite H. cbn [default from_option id lookup list_lookup].
    reflexivity.
Qed.

Lemma onmessage_hooks fuel f (st : Caches) :
  exists evs,
    onmessage behaviour (S (S fuel)) f (hooks_mounted st)
    = (Normal, {| handlers := handlers (hooks_mounted st);
                  app := react f st;
                  log := log (hooks_mounted st) ++ evs |}).
Proof.
  assert (Hidle : exists evs,
             (Normal, hooks_mounted st)
             = (Normal, {| handlers := handlers (hooks_mounted st);
                           app := st;
                           log := log (hooks_mounted st) ++ evs |})).
  { exists []. by rewrite app_nil_r. }
  unfold react, frame_type, frame_payload, onmessage.
  destruct f as [|msg]; [exact Hidle|].
  destruct (get_prop msg "type") as [[| | | |t| |]|]; try exact Hidle.
  destruct (String.eqb_spec t "initial_state") as [->|H1].
  { assert (L : handlers (hooks_mounted st) !! "initial_state"
                = Some [Some H_INITIAL_STATE]) by (rewrite hooks_registry; reflexivity).
    rewrite L, (forEach_one_hook fuel _ _ _ _ L). eexists. reflexivity. }
  destruct (String.eqb_spec t "dashboard_update") as [->|H2].
  { assert (L : handlers (hooks_mounted st) !! "dashboard_update"
                = Some [Some H_DASHBOARD_UPDATE]) by (rewrite hooks_registry; reflexivity).
    rewrite L, (forEach_one_hook fuel _ _ _ _ L). eexists. reflexivity. }
  destruct (String.eqb_spec t "blacklist_updated") as [->|H3].
  { assert (L : handlers (hooks_mounted st) !! "blacklist_updated"
                = Some [Some H_BLACKLIST_UPDATED]) by (rewrite hooks_registry; reflexivity).
    rewrite L, (forEach_one_hook fuel _ _ _ _ L). eexists. reflexivity. }
  assert (L : handlers (hooks_mounted st) !! t = None).
  { rewrite hooks_registry, !lookup_insert_ne by congruence. apply lookup_empty. }
  rewrite L. exact Hidle.
Qed.


Lemma react_cases f st :
  (frame_type f = Some "initial_state" /\ react f st = on_initial_state (frame_payload f) st) \/
  (frame_type f = Some "dashboard_update" /\ react f st = on_dashboard_update (frame_payload f) st) \/
  (frame_type f = Some "blacklist_updated" /\ react f st = on_blacklist_updated (frame_payload f) st) \/
  (frame_type f <> Some "initial_state" /\ frame_type f <> Some "dashboard_update" /\
   frame_type f <> Some "blacklist_updated" /\ react f st = st).
Proof.
  unfold react. destruct (frame_type f) as [t|]; [|do 3 right; repeat split; discriminate].
  destruct (String.eqb_spec t "initial_state") as [->|H1]; [left; done|].
  destruct (String.eqb_spec t "dashboard_update") as [->|H2]; [right; left; done|].
  destruct (String.eqb_spec t "blacklist_updated") as [->|H3]; [right; right; left; done|].
  do 3 right. repeat split; congruence.
Qed.

(** X9. With the hooks mounted, whatever arrives on the socket (text that
    does not parse, a value without a type, a type nobody listens to, or one
    of the three events) is processed to the end, leaves the registry
    unchanged, never changes the coin list data and never starts a dashboard
    fetch; the dashboard data changes on [initial_state] and
    [dashboard_update] only, and the coin list is fetched again exactly on
    [blacklist_updated], once. *)
Theorem frames_touch_only_their_cache :
  forall (st : Caches) fuel f,
    2 <= fuel ->
    let r := onmessage behaviour fuel f (hooks_mounted st) in
    r.1 = Normal /\
    handlers r.2 = handlers (hooks_mounted st) /\
    data (coins (app r.2)) = data (coins st) /\
    pulls (dashboard (app r.2)) = pulls (dashboard st) /\
    (frame_type f <> Some "initial_state" ->
     frame_type f <> Some "dashboard_update" ->
     data (dashboard (app r.2)) = data (dashboard st)) /\
    pulls (coins (app r.2)) =
      (if decide (frame_type f = Some "blacklist_updated")
       then S (pulls (coins st)) else pulls (coins st)).
Proof.
  intros st [|[|fuel]] f Hf; [lia|lia|]. cbv zeta.
  destruct (onmessage_hooks fuel f st) as [evs ->]. cbn [fst snd handlers app].
  split; [reflexivity|]. split; [reflexivity|].
  destruct (react_cases f st) as [[T ->]|[[T ->]|[[T ->]|(T1 & T2 & T3 & ->)]]].
  - rewrite T. unfold on_initial_state.
    destruct (truthy _); cbn; rewrite ?decide_False by discriminate; repeat split; try reflexivity; try congruence.
  - rewrite T. unfold on_dashboard_update. cbn.
    rewrite decide_False by discriminate. repeat split; try reflexivity; congruence.
  - rewrite T. unfold on_blacklist_updated. cbn.
    rewrite decide_True by reflexivity. repeat split; reflexivity.
  - rewrite decide_False by exact T3. repeat split; reflexivity.
Qed.

(** X10. After the cleanup of the dashboard hook's effect no frame, of
    whatever type and content, changes the dashboard cache. *)
Theorem cleanup_detaches_dashboard :
  forall (st : Caches) fuel f,
    dashboard (app (receive fuel f (useDashboard_cleanup (hooks_mounted st)))) = dashboard st.
Proof.
  intros st fuel f. unfold receive, onmessage.
  set (b := useDashboard_cleanup (hooks_mounted st)).
  assert (Hb : dashboard (app b) = dashboard st) by reflexivity.
  destruct f as [|msg]; [exact Hb|].
  destruct (get_prop msg "type") as [[| | | |t| |]|]; try exact Hb.
  destruct (handlers b !! t) as [s|] eqn:L; [|exact Hb].
  assert (Hr : dashboard (app (forEach behaviour fuel t (get_prop_opt msg "data") 0 b).2)
               = dashboard st).
  { destruct (decide (t = "initial_state")) as [->|H1].
    { rewrite forEach_empty_slot; [exact Hb|]. unfold b. rewrite cleaned_registry. reflexivity. }
    destruct (decide (t = "dashboard_update")) as [->|H2].
    { rewrite forEach_empty_slot; [exact Hb|]. unfold b. rewrite cleaned_registry. reflexivity. }
    destruct (decide (t = "blacklist_updated")) as [->|H3].
    { destruct fuel as [|[|fuel]]; reflexivity. }
    exfalso. unfold b in L. rewrite cleaned_registry, !lookup_insert_ne in L by congruence.
    rewrite lookup_empty in L. discriminate. }
  destruct (forEach behaviour fuel t (get_prop_opt msg "data") 0 b) as [[| |] b']; exact Hr.
Qed.


(** X11. The dashboard hook stops reporting [isLoading] as soon as an
    [initial_state] frame carries a truthy dashboard or a [dashboard_update]
    frame a truthy payload, whether or not the HTTP fetch has answered or
    failed; an [initial_state] frame without one, and every frame of
    another type, leave the flag as it was. *)
Theorem pushed_snapshot_ends_loading :
  forall (st : Caches) fuel f error,
    2 <= fuel ->
    let loading c := isLoading (data (dashboard c)) error in
    let st' := app (receive fuel f (hooks_mounted st)) in
    (frame_type f = Some "initial_state" ->
     truthy (get_prop_opt (frame_payload f) "dashboard") = true ->
     loading st' = false) /\
    (frame_type f = Some "initial_state" ->
     truthy (get_prop_opt (frame_payload f) "dashboard") = false ->
     loading st' = loading st) /\
    (frame_type f = Some "dashboard_update" ->
     truthy (frame_payload f) = true ->
     loading st' = false) /\
    (frame_type f <> Some "initial_state" ->
     frame_type f <> Some "dashboard_update" ->
     loading st' = loading st).
Proof.
  intros st [|[|fuel]] f error Hf; [lia|lia|]. cbv zeta. unfold receive.
  destruct (onmessage_hooks fuel f st) as [evs ->]. cbn [fst snd handlers app].
  unfold isLoading.
  destruct (react_cases f st) as [[T ->]|[[T ->]|[[T ->]|(T1 & T2 & T3 & ->)]]];
    rewrite ?T; unfold on_initial_state, on_dashboard_update, on_blacklist_updated.
  - split; [|split; [|split]]; try discriminate; try congruence.
    + intros _ H. rewrite H. cbn. rewrite H. reflexivity.
    + intros _ H. rewrite H. reflexivity.
  - split; [|split; [|split]]; try discriminate; try congruence.
    intros _ H. cbn. rewrite H. reflexivity.
  - split; [|split; [|split]]; try discriminate. reflexivity.
  - split; [|split; [|split]]; congruence.
Qed.

(** X12. [toggleBlacklist] starts one fetch of the coin list after any
    HTTP response, whatever its status, and changes neither the cached list
    nor the dashboard; a rejected request starts none and rejects the call;
    the [blacklist_updated] frame that follows starts a second fetch. *)
Theorem toggle_refreshes_coin_list :
  forall (st : Caches) fuel status d,
    2 <= fuel ->
    let done := toggleBlacklist_resume (Responded status) st in
    let told := app (receive fuel (pushed "blacklist_updated" d) (hooks_mounted done.1)) in
    done.2 = false /\
    pulls (coins done.1) = S (pulls (coins st)) /\
    data (coins done.1) = data (coins st) /\
    dashboard done.1 = dashboard st /\
    toggleBlacklist_resume Rejected st = (st, true) /\
    pulls (coins told) = S (S (pulls (coins st))) /\
    data (coins told) = data (coins st) /\
    dashboard told = dashboard st.
Proof.
  intros st [|[|fuel]] status d Hf; [lia|lia|]. cbv zeta. unfold receive.
  destruct (onmessage_hooks fuel (pushed "blacklist_updated" d)
              (toggleBlacklist_resume (Responded status) st).1) as [evs ->].
  cbn. repeat split; reflexivity.
Qed.

End HookFacts.

(** ** Order, search and selection in the tables *)

Section ViewFacts.

Import ViewTable Spec Views.

Variable localeCompare : string -> string -> Q.
Variable StringToNumber : string -> option Q.

Lemma negative_difference (a b : Q) :
  (negative (Some (a - b)%Q) = true -> (a <= b)%Q) /\
  (negative (Some (a - b)%Q) = false -> (b <= a)%Q).
Proof.
  unfold negative, Qle. destruct a as [an ad], b as [bn bd]. cbn.
  split; intros H.
  - apply Z.ltb_lt in H. lia.
  - apply Z.ltb_ge in H. lia.
Qed.

Lemma in_order_trans dir a b c :
  in_order dir a b -> in_order dir b c -> in_order dir a c.
Proof.
  unfold in_order.
  destruct (sort_value a) as [x|], (sort_value b) as [y|], (sort_value c) as [z|];
    try tauto.
  destruct dir; intros H1 H2; eapply Qle_trans; eauto.
Qed.

Lemma numeric_cells key : key <> K_coin -> forall c, numeric_or_missing (coin_field c key) = true.
Proof.
  intros Hk c. destruct key; try congruence; cbn; try reflexivity.
  - by destruct (win_rate c).
  - by destruct (total_pnl c).
Qed.

Lemma cell_comparator_sound (dir : SortDir) (av bv : Cell) :
  numeric_or_missing av = true -> numeric_or_missing bv = true ->
  let order := comparator localeCompare StringToNumber column_value tt dir av bv in
  (negative order = true -> in_order dir av bv) /\
  (negative order = false -> in_order dir bv av).
Proof.
  intros Ha Hb. unfold comparator, column_value, in_order.
  destruct av as [| |x|x|x], bv as [| |y|y|y]; try discriminate;
    destruct dir; cbn; split; intros H; try discriminate H; try exact I;
    apply negative_difference in H; exact H.
Qed.

(** X14. Sorted by any column but the ticker, the rows of the table are in
    order: every row stands before all rows with a larger value when
    ascending, with a smaller one when descending, and before all rows
    without a value. Coins with the total PnL 3, none, 1, none, 2 come out
    as 1, 2, 3, none, none and as 3, 2, 1, none, none. *)
Theorem numeric_columns_are_ordered :
  forall (coins : list CoinData) (search : string) (s : SortSpec),
    sortKey s <> K_coin ->
    StronglySorted (column_order (sortKey s) (sortDir s))
      (filtered localeCompare StringToNumber coins search s) /\
    total_pnl <$> filtered localeCompare StringToNumber pnl_rows ""
                    {| sortKey := K_total_pnl; sortDir := asc |}
      = [Some 1%Q; Some 2%Q; Some 3%Q; None; None] /\
    total_pnl <$> filtered localeCompare StringToNumber pnl_rows ""
                    {| sortKey := K_total_pnl; sortDir := desc |}
      = [Some 3%Q; Some 2%Q; Some 1%Q; None; None].
Proof.
  intros coins search [key dir] Hk. cbn [sortKey sortDir] in *.
  assert (Hsound : forall a b,
             negative (comparator localeCompare StringToNumber coin_field key dir a b) = true ->
             column_order key dir a b).
  { intros a b. apply (cell_comparator_sound dir (coin_field a key) (coin_field b key));
      by apply numeric_cells. }
  assert (Hcomplete : forall a b,
             negative (comparator localeCompare StringToNumber coin_field key dir a b) = false ->
             column_order key dir b a).
  { intros a b. apply (cell_comparator_sound dir (coin_field a key) (coin_field b key));
      by apply numeric_cells. }
  assert (Htrans : forall a b c,
             column_order key dir a b -> column_order key dir b c -> column_order key dir a c).
  { intros a b c. apply in_order_trans. }
  split; [|split].
  - unfold filtered, sort_rows. cbn [sortKey sortDir]. by apply array_sort_ordered.
  - reflexivity.
  - reflexivity.
Qed.

(** X15. The trade history lists the same trades, every trade before all
    trades closed earlier, whether the engine sorts by insertion or by
    merging; the list is empty exactly when there are no trades. *)
Theorem trades_newest_first :
  forall trades : list ClosedTrade,
    TradesTable_sorted trades ≡ₚ trades /\
    StronglySorted newest_first (TradesTable_sorted trades) /\
    StronglySorted newest_first (merge_sort by_closed_at_desc trades) /\
    (TradesTable_sorted trades = [] <-> trades = []).
Proof.
  intros trades.
  assert (Hsound : forall a b, negative (by_closed_at_desc a b) = true -> newest_first a b).
  { intros a b H. apply negative_difference in H. exact H. }
  assert (Hcomplete : forall a b, negative (by_closed_at_desc a b) = false -> newest_first b a).
  { intros a b H. apply negative_difference in H. exact H. }
  assert (Htrans : forall a b c, newest_first a b -> newest_first b c -> newest_first a c).
  { unfold newest_first. intros a b c H1 H2. eapply Qle_trans; eauto. }
  assert (Hperm : TradesTable_sorted trades ≡ₚ trades) by apply array_sort_rearranges.
  split; [exact Hperm|]. split; [by apply array_sort_ordered|].
  split; [by apply merge_sort_ordered|]. split.
  - intros E. rewrite E in Hperm. by apply Permutation_nil_l in Hperm.
  - intros ->. reflexivity.
Qed.

Lemma lower_upper c : lower_ascii (upper_ascii c) = lower_ascii c.
Proof. destruct c as [[] [] [] [] [] [] [] []]; reflexivity. Qed.

Lemma lower_lower c : lower_ascii (lower_ascii c) = lower_ascii c.
Proof. destruct c as [[] [] [] [] [] [] [] []]; reflexivity. Qed.

Lemma toLowerCase_toUpperCase s : toLowerCase (toUpperCase s) = toLowerCase s.
Proof. induction s as [|c s IH]; cbn; [reflexivity|]. by rewrite lower_upper, IH. Qed.

Lemma toLowerCase_idem s : toLowerCase (toLowerCase s) = toLowerCase s.
Proof. induction s as [|c s IH]; cbn; [reflexivity|]. by rewrite lower_lower, IH. Qed.

Lemma toLowerCase_append s t :
  toLowerCase (String.append s t) = String.append (toLowerCase s) (toLowerCase t).
Proof.
  induction s as [|c s IH]; [reflexivity|].
  rewrite append_cons. cbn [toLowerCase]. by rewrite append_cons, IH.
Qed.

Lemma append_assoc (s t u : string) :
  String.append (String.append s t) u = String.append s (String.append t u).
Proof.
  induction s as [|c s IH]; [reflexivity|]. by rewrite !append_cons, IH.
Qed.

Lemma contains_longer s q q' : contains s (String.append q q') -> contains s q.
Proof.
  intros (pre & post & ->). exists pre, (String.append q' post).
  by rewrite append_assoc.
Qed.

Lemma filter_narrows {B : Type} (f g : B -> bool) (l : list B) :
  (forall x, f x = true -> g x = true) ->
  sublist (List.filter f l) (List.filter g l).
Proof.
  intros Hfg. induction l as [|x l IH]; simpl; [constructor|].
  destruct (f x) eqn:Ef.
  - rewrite (Hfg x Ef). by constructor.
  - destruct (g x); [by constructor | exact IH].
Qed.

(** X16. The search box does not tell upper case from lower case: an
    ASCII search string, the same string in upper case and the same string
    in lower case keep the same rows, in the same order once sorted. *)
Theorem search_ignores_case :
  forall (coins : list CoinData) (q : string) (s : SortSpec),
    ascii_text q = true ->
    filter_rows coins (toUpperCase q) = filter_rows coins q /\
    filter_rows coins (toLowerCase q) = filter_rows coins q /\
    filtered localeCompare StringToNumber coins (toUpperCase q) s
      = filtered localeCompare StringToNumber coins q s.
Proof.
  intros coins q s _.
  assert (Hup : filter_rows coins (toUpperCase q) = filter_rows coins q).
  { unfold filter_rows. by rewrite toLowerCase_toUpperCase. }
  split; [exact Hup|]. split.
  - unfold filter_rows. by rewrite toLowerCase_idem.
  - unfold filtered. by rewrite Hup.
Qed.

(** X17. Typing on narrows the table: the rows kept by an ASCII search
    string that has been extended are among the rows kept before, in the
    same order, and a search that kept nothing keeps nothing when
    extended. *)
Theorem longer_search_narrows :
  forall (coins : list CoinData) (q q' : string),
    ascii_text (String.append q q') = true ->
    sublist (filter_rows coins (String.append q q')) (filter_rows coins q) /\
    (filter_rows coins q = [] -> filter_rows coins (String.append q q') = []).
Proof.
  intros coins q q' _.
  assert (Hsub : sublist (filter_rows coins (String.append q q')) (filter_rows coins q)).
  { unfold filter_rows. cbv zeta. apply filter_narrows. intros c. cbv beta.
    rewrite !includes_spec. rewrite toLowerCase_append. apply contains_longer. }
  split; [exact Hsub|]. intros E. rewrite E in Hsub. by apply sublist_nil_r.
Qed.

Lemma expanded_rearranged (l l' : list CoinData) sel :
  l ≡ₚ l' -> expanded l sel ≡ₚ expanded l' sel.
Proof.
  unfold expanded. induction 1 as [|x l l' H IH|x y l|l l' l'' H1 IH1 H2 IH2]; simpl.
  - reflexivity.
  - destruct sel as [sel|]; [destruct (String.eqb sel (coin x))|]; by rewrite ?IH.
  - destruct sel as [sel|]; [|reflexivity].
    destruct (String.eqb sel (coin x)), (String.eqb sel (coin y));
      try reflexivity. apply Permutation_swap.
  - by rewrite IH1.
Qed.

Lemma expanded_absent (l : list CoinData) c :
  c ∉ coin <$> l -> expanded l (Some c) = [].
Proof.
  unfold expanded. induction l as [|x l IH]; simpl; [reflexivity|].
  intros Hnin. apply not_elem_of_cons in Hnin as [Hne Hnin].
  apply String.eqb_neq in Hne. rewrite Hne. by apply IH.
Qed.

Lemma expanded_one (l : list CoinData) x :
  NoDup (coin <$> l) -> x ∈ l -> expanded l (Some (coin x)) = [x].
Proof.
  induction l as [|y l IH]; intros Hnd Hin; [by apply not_elem_of_nil in Hin|].
  cbn [fmap list_fmap] in Hnd. apply NoDup_cons in Hnd as [Hy Hnd].
  unfold expanded. cbn [List.filter].
  apply elem_of_cons in Hin as [->|Hin].
  - rewrite String.eqb_refl. f_equal. by apply expanded_absent.
  - destruct (String.eqb_spec (coin x) (coin y)) as [E|E].
    + exfalso. apply Hy. rewrite <- E. apply list_elem_of_fmap. by exists x.
    + by apply IH.
Qed.

Lemma expanded_at_most_one (l : list CoinData) sel :
  NoDup (coin <$> l) -> length (expanded l sel) <= 1.
Proof.
  intros Hnd. destruct sel as [c|].
  - induction l as [|y l IH]; [simpl; lia|].
    cbn [fmap list_fmap] in Hnd. apply NoDup_cons in Hnd as [Hy Hnd].
    unfold expanded. cbn [List.filter].
    destruct (String.eqb_spec c (coin y)) as [->|E].
    + fold (expanded l (Some (coin y))). rewrite expanded_absent by exact Hy.
      simpl. lia.
    + by apply IH.
  - unfold expanded. induction l as [|y l IH]; simpl; [lia|].
    apply IH. cbn [fmap list_fmap] in Hnd. by apply NoDup_cons in Hnd as [_ Hnd].
Qed.

Lemma tickers_sublist (l1 l2 : list CoinData) :
  sublist l1 l2 -> sublist (coin <$> l1) (coin <$> l2).
Proof. induction 1; cbn; by constructor. Qed.

Lemma tickers_of_view (coins : list CoinData) search s :
  NoDup (coin <$> coins) ->
  NoDup (coin <$> filtered localeCompare StringToNumber coins search s).
Proof.
  intros Hnd. unfold filtered, sort_rows.
  rewrite (array_sort_rearranges _ (filter_rows coins search)).
  eapply sublist_NoDup; [exact Hnd|]. apply tickers_sublist.
  unfold filter_rows. apply filter_sublist.
Qed.

(** X18. With tickers that are unique, at most one row of the table has
    its detail panel open. A click on a row opens the panel of that row
    alone, whether none or another one was open, and a click on the open row
    closes it; changing the sort does not change which row is open. *)
Theorem one_detail_panel_at_a_time :
  forall (coins : list CoinData) (search : string) (s : SortSpec)
         (selectedCoin : option string),
    NoDup (coin <$> coins) ->
    let rows := filtered localeCompare StringToNumber coins search s in
    length (expanded rows selectedCoin) <= 1 /\
    (forall c, c ∈ rows ->
       expanded rows (selectRow (coin c) None) = [c] /\
       expanded rows (selectRow (coin c) (Some (coin c))) = [] /\
       (forall other, other <> coin c ->
          expanded rows (selectRow (coin c) (Some other)) = [c])) /\
    (forall s', expanded (filtered localeCompare StringToNumber coins search s')
                  selectedCoin ≡ₚ expanded rows selectedCoin).
Proof.
  intros coins search s sel Hnd rows.
  pose proof (tickers_of_view coins search s Hnd) as Hrows. fold rows in Hrows.
  split; [by apply expanded_at_most_one|]. split.
  - intros c Hc. split; [|split].
    + cbn. by apply expanded_one.
    + unfold selectRow. rewrite String.eqb_refl. unfold expanded.
      clear. induction rows as [|y l IH]; simpl; auto.
    + intros other Hne. unfold selectRow. apply String.eqb_neq in Hne. rewrite Hne.
      by apply expanded_one.
  - intros s'. apply expanded_rearranged. unfold rows, filtered, sort_rows.
    by rewrite !array_sort_rearranges.
Qed.

Lemma clicks_same key n s :
  sortKey s = key ->
  clicks (replicate n key) s =
  {| sortKey := key;
     sortDir := if Nat.even n then sortDir s else flip (sortDir s) |}.
Proof.
  revert s. induction n as [|n IH]; intros s Hs.
  - destruct s as [k d]. cbn in *. by subst.
  - cbn [replicate clicks fold_left]. fold (clicks (replicate n key) (handleSort key s)).
    assert (Hc : handleSort key s = {| sortKey := key; sortDir := flip (sortDir s) |}).
    { unfold handleSort. case_decide; [by subst | congruence]. }
    rewrite IH by (by rewrite Hc). rewrite Hc. cbn [sortDir].
    rewrite Nat.even_succ, <- Nat.negb_even.
    destruct (Nat.even n), (sortDir s); reflexivity.
Qed.

(** X19. Clicks on one column header: the column is the sort column from
    the first click on, ascending after an odd number of clicks and
    descending after an even number when it was not the sort column before;
    on the sort column every click flips the direction. A sequence of
    clicks acts as its parts one after the other. *)
Theorem header_clicks_alternate :
  forall (s : SortSpec) (key : SortKey) (n : nat),
    sortKey (clicks (replicate (S n) key) s) = key /\
    (sortKey s <> key ->
     sortDir (clicks (replicate (S n) key) s) = if Nat.even n then asc else desc) /\
    (sortKey s = key ->
     sortDir (clicks (replicate n key) s)
     = if Nat.even n then sortDir s else flip (sortDir s)) /\
    (forall before after,
       clicks (before ++ after) s = clicks after (clicks before s)).
Proof.
  intros s key n.
  assert (Hfirst : sortKey (handleSort key s) = key).
  { unfold handleSort. case_decide; [by subst | reflexivity]. }
  split; [|split; [|split]].
  - cbn [replicate clicks fold_left]. fold (clicks (replicate n key) (handleSort key s)).
    by rewrite clicks_same.
  - intros Hne. cbn [replicate clicks fold_left].
    fold (clicks (replicate n key) (handleSort key s)).
    rewrite clicks_same by exact Hfirst. cbn [sortDir].
    unfold handleSort. case_decide; [congruence|]. cbn [sortDir].
    by destruct (Nat.even n).
  - intros Hs. by rewrite clicks_same.
  - intros before after. unfold clicks. apply fold_left_app.
Qed.

End ViewFacts.

Section TextFacts.

Import ViewTable Views.

Variable toFixed : Q -> nat -> string.
Variable toLocaleString_en_US : Q -> nat -> string.

Lemma Qabs_opp_eq (v : Q) : Qabs (- v) = Qabs v.
Proof. destruct v as [n d]. unfold Qabs, Qopp. cbn. by rewrite Z.abs_opp. Qed.

Lemma nonneg_negative (v : Q) : (v < 0)%Q -> nonneg v = false /\ nonneg (- v) = true.
Proof.
  intros Hv. unfold nonneg. split.
  - destruct (Qle_bool 0 v) eqn:E; [|reflexivity].
    apply Qle_bool_iff in E. exfalso. by apply (Qlt_not_le v 0).
  - apply Qle_bool_iff. apply Qlt_le_weak.
    destruct v as [n d]. unfold Qlt, Qopp in *. cbn in *. lia.
Qed.

(** X20. [formatPnl] writes a negative amount without a sign: a loss
    reads as its absolute value, and the gain of the same size as the same
    text after a plus sign. *)
Theorem formatPnl_drops_the_minus :
  forall v : Q,
    (v < 0)%Q ->
    formatPnl toFixed v = toFixed (Qabs v) 2 /\
    formatPnl toFixed (- v) = String.append "+" (formatPnl toFixed v).
Proof.
  intros v Hv. destruct (nonneg_negative v Hv) as [Hn Hp].
  unfold formatPnl. rewrite Hn, Hp, Qabs_opp_eq. split; reflexivity.
Qed.

Lemma nonneg_spec (v : Q) : (0 <= v)%Q -> nonneg v = true.
Proof. intros Hv. unfold nonneg. by apply Qle_bool_iff. Qed.

(** X21. The total PnL of a coin with a loss is written with a minus sign
    in the table row and without any sign on the detail card, which shows
    the gain of the same size as the same text after a plus sign; an amount
    that is zero or a gain is written after a plus sign in both places. *)
Theorem detail_card_hides_the_loss_sign :
  forall v : Q,
    let amount := String.append "$" (formatCurrency toLocaleString_en_US (Qabs v) 2) in
    ((v < 0)%Q ->
     pnl_cell toLocaleString_en_US (Some v) = String.append "-" amount /\
     pnl_card toLocaleString_en_US (Some v) = amount /\
     pnl_cell toLocaleString_en_US (Some v)
       = String.append "-" (pnl_card toLocaleString_en_US (Some v)) /\
     pnl_card toLocaleString_en_US (Some (- v))
       = String.append "+" (pnl_card toLocaleString_en_US (Some v)) /\
     pnl_cell toLocaleString_en_US (Some (- v))
       = pnl_card toLocaleString_en_US (Some (- v))) /\
    ((0 <= v)%Q ->
     pnl_cell toLocaleString_en_US (Some v) = String.append "+" amount /\
     pnl_card toLocaleString_en_US (Some v) = String.append "+" amount).
Proof.
  intros v amount. split.
  - intros Hv. destruct (nonneg_negative v Hv) as [Hn Hp].
    unfold amount, pnl_cell, pnl_card. rewrite Hn, Hp, Qabs_opp_eq.
    repeat split; reflexivity.
  - intros Hv. unfold amount, pnl_cell, pnl_card. rewrite (nonneg_spec v Hv).
    split; reflexivity.
Qed.

End TextFacts.

Section PayloadFacts.

Import EventBus Connection Views.

Context {St : Type}.
Variable JSON_stringify : JSValue -> string.

(** X22. A payload that is a number, a boolean, [null] or [undefined] has
    nothing to spread: the envelope holds the type alone, and that is what
    an open socket is given. *)
Theorem primitive_payload_is_not_sent :
  forall (type : string) (data : JSValue),
    primitive data = true ->
    envelope type data = [("type", JStr type)] /\
    (forall i (p : Provider St),
       wsRef p = Some i -> sockets p !! i = Some OPEN ->
       outbox (send JSON_stringify type data p)
       = outbox p ++ [(i, JSON_stringify (JObj [("type", JStr type)]))]).
Proof.
  intros type data Hp.
  assert (He : envelope type data = [("type", JStr type)]).
  { unfold envelope. destruct data as [| |b|x|s|items|fields]; try discriminate;
      try reflexivity.
    - by destruct b.
    - cbn. by destruct (Qeq_bool x 0). }
  split; [exact He|]. intros i p Href Hs.
  rewrite (send_open JSON_stringify type data i p Href Hs). by rewrite He.
Qed.

End PayloadFacts.

(** ** Instances *)

Lemma dispatch_reaches_every_handler_witness :
  let st := {| ResourceCache.dashboard :=
                 {| ResourceCache.data := JUndefined; ResourceCache.pulls := 0 |};
               ResourceCache.coins :=
                 {| ResourceCache.data := JUndefined; ResourceCache.pulls := 0 |} |} in
  let b := ResourceCache.hooks_mounted st in
  let h := ResourceCache.H_DASHBOARD_UPDATE in
  EventBus.handlers b !! "dashboard_update" = Some [Some h] /\
  (forall g st', Some g ∈ [Some h] ->
     EventBus.out_ops (ResourceCache.behaviour g JNull st') = [] /\
     EventBus.out_throws (ResourceCache.behaviour g JNull st') = false) /\
  length [Some h] < 2 /\
  exists b',
    EventBus.onmessage ResourceCache.behaviour 2
      (Spec.pushed "dashboard_update" JNull) b = (EventBus.Normal, b') /\
    EventBus.handlers b' = EventBus.handlers b /\
    EventBus.log b' = EventBus.log b ++ [EventBus.EvInvoke "dashboard_update" h JNull].
Proof.
  intros st b h.
  assert (Hset : EventBus.handlers b !! "dashboard_update" = Some [Some h])
    by reflexivity.
  assert (Hq : forall g st', Some g ∈ [Some h] ->
             EventBus.out_ops (ResourceCache.behaviour g JNull st') = [] /\
             EventBus.out_throws (ResourceCache.behaviour g JNull st') = false).
  { intros [|[|[|g]]] st' _; split; reflexivity. }
  assert (Hfuel : length [Some h] < 2) by (simpl; lia).
  split; [exact Hset|]. split; [exact Hq|]. split; [exact Hfuel|].
  exact (dispatch_reaches_every_handler ResourceCache.behaviour
           "dashboard_update" JNull [Some h] b 2 Hset Hq Hfuel).
Defined.

Lemma frames_touch_only_their_cache_witness :
  let st := {| ResourceCache.dashboard :=
                 {| ResourceCache.data := JUndefined; ResourceCache.pulls := 0 |};
               ResourceCache.coins :=
                 {| ResourceCache.data := JArr []; ResourceCache.pulls := 4 |} |} in
  let r := EventBus.onmessage ResourceCache.behaviour 2
             (Spec.pushed "blacklist_updated" JNull) (ResourceCache.hooks_mounted st) in
  2 <= 2 /\
  r.1 = EventBus.Normal /\
  ResourceCache.data (ResourceCache.coins (EventBus.app r.2)) = JArr [] /\
  ResourceCache.pulls (ResourceCache.coins (EventBus.app r.2)) = 5.
Proof.
  intros st r.
  assert (Hfuel : 2 <= 2) by lia.
  destruct (frames_touch_only_their_cache st 2
              (Spec.pushed "blacklist_updated" JNull) Hfuel)
    as (Hdone & _ & Hdata & _ & _ & Hpulls).
  split; [exact Hfuel|]. split; [exact Hdone|]. split; [exact Hdata|]. exact Hpulls.
Defined.

Lemma pushed_snapshot_ends_loading_witness :
  let st := {| ResourceCache.dashboard :=
                 {| ResourceCache.data := JUndefined; ResourceCache.pulls := 1 |};
               ResourceCache.coins :=
                 {| ResourceCache.data := JUndefined; ResourceCache.pulls := 1 |} |} in
  let f := Spec.pushed "initial_state"
             (JObj [("dashboard", JObj [("equity", JNum 1000)])]) in
  2 <= 2 /\
  Hooks.frame_type f = Some "initial_state" /\
  truthy (get_prop_opt (Hooks.frame_payload f) "dashboard") = true /\
  Hooks.isLoading (ResourceCache.data (ResourceCache.dashboard st)) JUndefined = true /\
  Hooks.isLoading
    (ResourceCache.data
       (ResourceCache.dashboard
          (EventBus.app (ResourceCache.receive 2 f (ResourceCache.hooks_mounted st)))))
    JUndefined = false.
Proof.
  intros st f.
  assert (Hfuel : 2 <= 2) by lia.
  assert (Hty : Hooks.frame_type f = Some "initial_state") by reflexivity.
  assert (Htruthy : truthy (get_prop_opt (Hooks.frame_payload f) "dashboard") = true)
    by reflexivity.
  split; [exact Hfuel|]. split; [exact Hty|]. split; [exact Htruthy|].
  split; [reflexivity|].
  exact (proj1 (pushed_snapshot_ends_loading st 2 f JUndefined Hfuel) Hty Htruthy).
Defined.

Lemma toggle_refreshes_coin_list_witness :
  let st := {| ResourceCache.dashboard :=
                 {| ResourceCache.data := JUndefined; ResourceCache.pulls := 1 |};
               ResourceCache.coins :=
                 {| ResourceCache.data := JArr []; ResourceCache.pulls := 1 |} |} in
  let done := Hooks.toggleBlacklist_resume (Hooks.Responded 500) st in
  2 <= 2 /\
  done.2 = false /\
  ResourceCache.pulls (ResourceCache.coins done.1) = 2.
Proof.
  intros st done.
  assert (Hfuel : 2 <= 2) by lia.
  destruct (toggle_refreshes_coin_list st 2 500 JNull Hfuel) as (Hok & Hpulls & _).
  split; [exact Hfuel|]. split; [exact Hok | exact Hpulls].
Defined.

Lemma numeric_columns_are_ordered_witness :
  let s := {| ViewTable.sortKey := ViewTable.K_total_pnl;
              ViewTable.sortDir := ViewTable.desc |} in
  ViewTable.sortKey s <> ViewTable.K_coin /\
  StronglySorted (Views.column_order ViewTable.K_total_pnl ViewTable.desc)
    (ViewTable.filtered (fun _ _ => 0%Q) (fun _ => None) Spec.pnl_rows "" s) /\
  ViewTable.total_pnl <$>
    ViewTable.filtered (fun _ _ => 0%Q) (fun _ => None) Spec.pnl_rows "" s
    = [Some 3%Q; Some 2%Q; Some 1%Q; None; None].
Proof.
  intros s.
  assert (Hk : ViewTable.sortKey s <> ViewTable.K_coin) by discriminate.
  destruct (numeric_columns_are_ordered (fun _ _ => 0%Q) (fun _ => None)
              Spec.pnl_rows "" s Hk) as (Hsorted & _ & Hdesc).
  split; [exact Hk|]. split; [exact Hsorted | exact Hdesc].
Defined.

Lemma search_ignores_case_witness :
  Views.ascii_text "et" = true /\
  ViewTable.filter_rows Spec.three_coins (Views.toUpperCase "et")
    = ViewTable.filter_rows Spec.three_coins "et".
Proof.
  assert (H : Views.ascii_text "et" = true) by reflexivity.
  split; [exact H|].
  exact (proj1 (search_ignores_case (fun _ _ => 0%Q) (fun _ => None)
                  Spec.three_coins "et" ViewTable.initial_sort H)).
Defined.

Lemma longer_search_narrows_witness :
  Views.ascii_text (String.append "e" "t") = true /\
  sublist (ViewTable.filter_rows Spec.three_coins (String.append "e" "t"))
          (ViewTable.filter_rows Spec.three_coins "e").
Proof.
  assert (H : Views.ascii_text (String.append "e" "t") = true) by reflexivity.
  split; [exact H|].
  exact (proj1 (longer_search_narrows Spec.three_coins "e" "t" H)).
Defined.

Lemma one_detail_panel_at_a_time_witness :
  NoDup (ViewTable.coin <$> Spec.three_coins) /\
  length (Views.expanded
            (ViewTable.filtered (fun _ _ => 0%Q) (fun _ => None) Spec.three_coins ""
               ViewTable.initial_sort)
            (Some "ETH")) <= 1.
Proof.
  assert (Hnd : NoDup (ViewTable.coin <$> Spec.three_coins)).
  { apply (bool_decide_unpack _). vm_compute. exact I. }
  split; [exact Hnd|].
  exact (proj1 (one_detail_panel_at_a_time (fun _ _ => 0%Q) (fun _ => None)
                  Spec.three_coins "" ViewTable.initial_sort (Some "ETH") Hnd)).
Defined.

Lemma header_clicks_alternate_witness :
  let s := ViewTable.initial_sort in
  ViewTable.sortKey s <> ViewTable.K_total_pnl /\
  ViewTable.sortDir (Views.clicks (replicate 2 ViewTable.K_total_pnl) s)
    = ViewTable.desc.
Proof.
  intros s.
  assert (Hne : ViewTable.sortKey s <> ViewTable.K_total_pnl) by discriminate.
  split; [exact Hne|].
  exact (proj1 (proj2 (header_clicks_alternate s ViewTable.K_total_pnl 1)) Hne).
Defined.

Lemma formatPnl_drops_the_minus_witness :
  (-5 < 0)%Q /\
  Views.formatPnl (fun _ _ => "5.00") (-5) = "5.00".
Proof.
  assert (H : (-5 < 0)%Q) by reflexivity.
  split; [exact H|].
  exact (proj1 (formatPnl_drops_the_minus (fun _ _ => "5.00") (-5)%Q H)).
Defined.

Lemma detail_card_hides_the_loss_sign_witness :
  (-5 < 0)%Q /\ (0 <= 0)%Q /\
  Views.pnl_cell (fun _ _ => "5.00") (Some (-5)%Q) = "-$5.00" /\
  Views.pnl_card (fun _ _ => "5.00") (Some (-5)%Q) = "$5.00" /\
  Views.pnl_cell (fun _ _ => "0.00") (Some 0%Q) = "+$0.00" /\
  Views.pnl_card (fun _ _ => "0.00") (Some 0%Q) = "+$0.00".
Proof.
  assert (Hloss : (-5 < 0)%Q) by reflexivity.
  assert (Hzero : (0 <= 0)%Q) by (unfold Qle; cbn; lia).
  destruct (proj1 (detail_card_hides_the_loss_sign (fun _ _ => "5.00") (-5)%Q) Hloss)
    as (Hcell & Hcard & _).
  destruct (proj2 (detail_card_hides_the_loss_sign (fun _ _ => "0.00") 0%Q) Hzero)
    as (Hcell0 & Hcard0).
  split; [exact Hloss|]. split; [exact Hzero|].
  split; [exact Hcell|]. split; [exact Hcard|]. split; [exact Hcell0 | exact Hcard0].
Defined.

Lemma primitive_payload_is_not_sent_witness :
  Views.primitive (JNum 42) = true /\
  Connection.envelope "subscribe" (JNum 42) = [("type", JStr "subscribe")].
Proof.
  assert (H : Views.primitive (JNum 42) = true) by reflexivity.
  split; [exact H|].
  exact (proj1 (primitive_payload_is_not_sent (St := unit) Spec.no_text
                  "subscribe" (JNum 42) H)).
Defined.
